(** * json-viewer: the transform and diff core of [app.js]

    A shallow embedding of the pure functions of [src/app.js]
    ([parseJSON], [getJSONStats], [syntaxHighlight], [buildTreeHTML],
    [jsonToXml], [jsonToTypeScript], [jsonDiff]) and the properties
    that the specification states about them.

    Conventions of the embedding.
    - A JavaScript string is a [string]; one [ascii] stands for one
      code unit.
    - A number is an IEEE-754 double, [spec_float]; [===] on numbers
      is [SFeqb].  [JSON.parse] never yields NaN.
    - An object is the list of its own enumerable properties in the
      order in which [Object.keys] / [Object.entries] enumerate them;
      this is the order the specification calls insertion order.
      Property names of one object are pairwise distinct.
    - A plain object inherits from [Object.prototype]: the operator
      [in] and a property read also see the inherited names (module
      [Diff]); [Object.keys] and [Object.entries] do not.
    - Host functionality that the code only calls ([JSON.parse],
      [Number::toString], [Math.random], [JSON.stringify],
      [String.prototype.toUpperCase]) is a parameter of the function
      that calls it. *)

From Stdlib Require Import String Ascii List Arith Bool Lia ZArith.
From Stdlib Require Import DecimalString SpecFloat Permutation.
Import ListNotations.
Open Scope list_scope.
Open Scope string_scope.

(** ** Tree values *)

Unset Elimination Schemes.
Inductive value : Type :=
| JNull
| JBool (b : bool)
| JNumber (n : spec_float)
| JString (s : string)
| JArray (items : list value)
| JObject (entries : list (string * value)).
Set Elimination Schemes.

(** Nesting height, the measure of every recursion over two values. *)
Fixpoint height (v : value) : nat :=
  match v with
  | JArray items => S (fold_right (fun x m => Nat.max (height x) m) 0 items)
  | JObject entries =>
      S (fold_right (fun e m => Nat.max (height (snd e)) m) 0 entries)
  | _ => 0
  end.

(** Structural induction with the hypothesis for every child. *)
Definition value_ind (P : value -> Prop)
  (Hnull : P JNull)
  (Hbool : forall b, P (JBool b))
  (Hnum : forall n, P (JNumber n))
  (Hstr : forall s, P (JString s))
  (Harr : forall items, Forall P items -> P (JArray items))
  (Hobj : forall entries, Forall (fun e => P (snd e)) entries ->
                          P (JObject entries)) : forall v, P v :=
  fix go (v : value) : P v :=
    match v with
    | JNull => Hnull
    | JBool b => Hbool b
    | JNumber n => Hnum n
    | JString s => Hstr s
    | JArray items =>
        Harr items
          ((fix all (l : list value) : Forall P l :=
              match l with
              | [] => Forall_nil _
              | x :: l' => Forall_cons x (go x) (all l')
              end) items)
    | JObject entries =>
        Hobj entries
          ((fix all (l : list (string * value))
              : Forall (fun e => P (snd e)) l :=
              match l with
              | [] => Forall_nil _
              | e :: l' => Forall_cons e (go (snd e)) (all l')
              end) entries)
    end.



(** The double 1, mantissa [2^52] and exponent [-52]. *)
Definition num_one : spec_float := S754_finite false 4503599627370496 (-52).

(** ** Text helpers *)

(** [String(i)] / template interpolation of a non-negative integer. *)
Definition nat_to_string (n : nat) : string :=
  NilZero.string_of_uint (Nat.to_uint n).

(** [s.replace(/c/g, r)] for a single character [c]. *)
Fixpoint replace_char (c : ascii) (r : string) (s : string) : string :=
  match s with
  | EmptyString => EmptyString
  | String x s' =>
      if Ascii.eqb x c then r ++ replace_char c r s'
      else String x (replace_char c r s')
  end.

Definition amp : ascii := "&"%char.
Definition lt : ascii := "<"%char.
Definition gt : ascii := ">"%char.
Definition quot : ascii := "034"%char.
Definition newline : ascii := "010"%char.

(** The one-character string that JavaScript writes as a backslash
    followed by n. *)
Definition nl : string := String newline "".

(** The concatenation of a list of strings. *)
Definition concat_strings (l : list string) : string :=
  fold_right String.append "" l.

(** [s] between double quotes. *)
Definition dq (s : string) : string := String quot (s ++ String quot "").

(** [.replace(/&/g,'&amp;').replace(/</g,'&lt;').replace(/>/g,'&gt;')] *)
Definition escape_text (s : string) : string :=
  replace_char gt "&gt;" (replace_char lt "&lt;" (replace_char amp "&amp;" s)).

(** The same chain followed by the replacement of every double quote
    by [&quot;]. *)
Definition escape_attr (s : string) : string :=
  replace_char quot "&quot;" (escape_text s).

Fixpoint contains_char (c : ascii) (s : string) : bool :=
  match s with
  | EmptyString => false
  | String x s' => Ascii.eqb x c || contains_char c s'
  end.

(** [s] occurs in [t] as a contiguous substring. *)
Fixpoint is_substring (s t : string) : bool :=
  String.prefix s t ||
  match t with
  | EmptyString => false
  | String _ t' => is_substring s t'
  end.

(** Character classes of the regular expressions, on one code unit. *)
Definition is_upper (c : ascii) : bool :=
  let n := nat_of_ascii c in Nat.leb 65 n && Nat.leb n 90.

Definition is_lower (c : ascii) : bool :=
  let n := nat_of_ascii c in Nat.leb 97 n && Nat.leb n 122.

Definition is_digit (c : ascii) : bool :=
  let n := nat_of_ascii c in Nat.leb 48 n && Nat.leb n 57.

(** A letter or a digit. *)
Definition is_alnum (c : ascii) : bool :=
  is_lower c || is_upper c || is_digit c.

(** White space: tab, line feed, vertical tab, form feed, carriage
    return, space and no-break space. *)
Definition is_space (c : ascii) : bool :=
  let n := nat_of_ascii c in
  Nat.eqb n 9 || Nat.eqb n 10 || Nat.eqb n 11 || Nat.eqb n 12
  || Nat.eqb n 13 || Nat.eqb n 32 || Nat.eqb n 160.

Fixpoint forall_chars (f : ascii -> bool) (s : string) : bool :=
  match s with
  | EmptyString => true
  | String c s' => f c && forall_chars f s'
  end.

(** The rest of [s] after a leading [w]. *)
Fixpoint strip_prefix (w s : string) : option string :=
  match w, s with
  | EmptyString, _ => Some s
  | String a w', String b s' =>
      if Ascii.eqb a b then strip_prefix w' s' else None
  | String _ _, EmptyString => None
  end.

(** ** Sets of strings *)

(** Membership of a string in a list of strings. *)
Definition mem (k : string) (l : list string) : bool :=
  existsb (String.eqb k) l.

(** [new Set(l)] in iteration order: first occurrences only. *)
Fixpoint set_from (seen : list string) (l : list string) : list string :=
  match l with
  | [] => []
  | k :: l' =>
      if mem k seen then set_from seen l' else k :: set_from (k :: seen) l'
  end.

Definition new_Set (l : list string) : list string := set_from [] l.

Lemma mem_In k l : mem k l = true <-> In k l.
Proof.
  unfold mem. rewrite existsb_exists. split.
  - intros (x & Hin & Heq). apply String.eqb_eq in Heq. now subst.
  - intro Hin. exists k. split; [assumption | apply String.eqb_refl].
Qed.

(** ** Statistics ([getJSONStats]) *)

Module Stats.

Record stats : Type := mkStats {
  keys : nat;
  depth : nat;
  arrays : nat;
  objects : nat;
  values : nat
}.

(** The closure [traverse] of [getJSONStats]; the five captured
    counters are threaded as a record. *)
Fixpoint traverse (obj : value) (d : nat) (st : stats) : stats :=
  let st :=
    if Nat.ltb (depth st) d
    then mkStats (keys st) d (arrays st) (objects st) (values st)
    else st in
  match obj with
  | JArray items =>
      let st := mkStats (keys st) (depth st) (S (arrays st)) (objects st)
                        (values st) in
      fold_left (fun st item => traverse item (d + 1) st) items st
  | JObject entries =>
      let st := mkStats (keys st) (depth st) (arrays st) (S (objects st))
                        (values st) in
      let st := mkStats (keys st + length entries) (depth st) (arrays st)
                        (objects st) (values st) in
      fold_left (fun st e => traverse (snd e) (d + 1) st) entries st
  | _ =>
      mkStats (keys st) (depth st) (arrays st) (objects st) (S (values st))
  end.

Definition getJSONStats (data : value) : stats :=
  traverse data 0 (mkStats 0 0 0 0 0).

(** The reference recursion of the specification, one function per
    counter, each defined on the tree alone. *)
Definition sum_over {A} (f : A -> nat) (l : list A) : nat :=
  fold_right (fun x acc => f x + acc) 0 l.

Definition max_over {A} (f : A -> nat) (d : nat) (l : list A) : nat :=
  fold_right (fun x acc => Nat.max (f x) acc) d l.

Fixpoint arrayCount (v : value) : nat :=
  match v with
  | JArray items => 1 + sum_over arrayCount items
  | JObject entries => sum_over (fun e => arrayCount (snd e)) entries
  | _ => 0
  end.

Fixpoint objectCount (v : value) : nat :=
  match v with
  | JArray items => sum_over objectCount items
  | JObject entries => 1 + sum_over (fun e => objectCount (snd e)) entries
  | _ => 0
  end.

Fixpoint keyCount (v : value) : nat :=
  match v with
  | JArray items => sum_over keyCount items
  | JObject entries =>
      length entries + sum_over (fun e => keyCount (snd e)) entries
  | _ => 0
  end.

Fixpoint scalarValueCount (v : value) : nat :=
  match v with
  | JArray items => sum_over scalarValueCount items
  | JObject entries => sum_over (fun e => scalarValueCount (snd e)) entries
  | _ => 1
  end.

(** The largest depth of a node of [v], when [v] itself is at depth [d]. *)
Fixpoint maxDepth (d : nat) (v : value) : nat :=
  match v with
  | JArray items => max_over (maxDepth (S d)) d items
  | JObject entries => max_over (fun e => maxDepth (S d) (snd e)) d entries
  | _ => d
  end.

Definition reference (v : value) : stats :=
  mkStats (keyCount v) (maxDepth 0 v) (arrayCount v) (objectCount v)
          (scalarValueCount v).

Lemma max_over_base {A} (f : A -> nat) a (l : list A) :
  max_over f a l = Nat.max a (max_over f 0 l).
Proof. induction l; simpl; lia. Qed.

(** The state that results from adding the reference counts of a node
    at depth [d] to [st]. *)
Definition add_counts (st : stats) (d : nat) (v : value) : stats :=
  mkStats (keys st + keyCount v) (Nat.max (depth st) (maxDepth d v))
          (arrays st + arrayCount v) (objects st + objectCount v)
          (values st + scalarValueCount v).

Lemma fold_traverse {A} (sel : A -> value) (l : list A) (d : nat) :
  Forall (fun x => forall d st, traverse (sel x) d st = add_counts st d (sel x)) l ->
  forall st,
  fold_left (fun st x => traverse (sel x) (d + 1) st) l st =
  mkStats (keys st + sum_over (fun x => keyCount (sel x)) l)
          (max_over (fun x => maxDepth (S d) (sel x)) (depth st) l)
          (arrays st + sum_over (fun x => arrayCount (sel x)) l)
          (objects st + sum_over (fun x => objectCount (sel x)) l)
          (values st + sum_over (fun x => scalarValueCount (sel x)) l).
Proof.
  induction 1 as [| x l Hx _ IH]; intro st; simpl.
  - destruct st; simpl; f_equal; lia.
  - rewrite Hx, IH. unfold add_counts; simpl.
    rewrite Nat.add_1_r, max_over_base.
    rewrite (max_over_base _ (depth st)).
    f_equal; lia.
Qed.

(** What one call of [traverse] adds to the counters it is given. *)
Lemma traverse_adds v : forall d st, traverse v d st = add_counts st d v.
Proof.
  induction v as [| b | n | s | items IH | entries IH] using value_ind;
    intros d st;
    try (unfold add_counts; simpl; destruct (Nat.ltb_spec (depth st) d);
         simpl; f_equal; lia).
  - cbn [traverse]. rewrite (fold_traverse (fun x => x)) by exact IH.
    unfold add_counts.
    cbn [keyCount arrayCount objectCount scalarValueCount maxDepth].
    change (fun x : value => maxDepth (S d) x) with (maxDepth (S d)).
    change (fun x : value => keyCount x) with keyCount.
    change (fun x : value => arrayCount x) with arrayCount.
    change (fun x : value => objectCount x) with objectCount.
    change (fun x : value => scalarValueCount x) with scalarValueCount.
    rewrite max_over_base, (max_over_base (maxDepth (S d)) d).
    destruct (Nat.ltb_spec (depth st) d);
      cbn [keys depth arrays objects values]; f_equal; lia.
  - cbn [traverse]. rewrite (fold_traverse snd) by exact IH.
    unfold add_counts.
    cbn [keyCount arrayCount objectCount scalarValueCount maxDepth].
    rewrite max_over_base, (max_over_base _ d).
    destruct (Nat.ltb_spec (depth st) d);
      cbn [keys depth arrays objects values]; f_equal; lia.
Qed.

(** C7. For every tree value, [getJSONStats] returns exactly the
    counts of the reference recursion with the root at depth 0: arrays
    and objects are counted once per node, an object adds its member
    count to the key count, every other node is one scalar, children
    are visited one level deeper, and the depth is the largest depth of
    any visited node, the root included. *)
Theorem getJSONStats_reference (v : value) : getJSONStats v = reference v.
Proof.
  unfold getJSONStats, reference. rewrite traverse_adds.
  unfold add_counts. simpl. reflexivity.
Qed.

End Stats.

(** ** Structural diff ([jsonDiff]) *)

Module Diff.

(** What [compare] can be handed: a tree value, or one of the values
    that a property read reaches through the prototype chain of a
    plain object. *)
Inductive jsval : Type :=
| Tree (v : value)
| Undefined
| Builtin (name : string)
| ObjectPrototype.

Inductive js_type : Type :=
| TyUndefined | TyObject | TyBoolean | TyNumber | TyString | TyFunction.

Definition js_type_eqb (s t : js_type) : bool :=
  match s, t with
  | TyUndefined, TyUndefined | TyObject, TyObject | TyBoolean, TyBoolean
  | TyNumber, TyNumber | TyString, TyString | TyFunction, TyFunction => true
  | _, _ => false
  end.

(** [typeof x] *)
Definition typeof (x : jsval) : js_type :=
  match x with
  | Tree JNull => TyObject
  | Tree (JBool _) => TyBoolean
  | Tree (JNumber _) => TyNumber
  | Tree (JString _) => TyString
  | Tree (JArray _) => TyObject
  | Tree (JObject _) => TyObject
  | Undefined => TyUndefined
  | Builtin _ => TyFunction
  | ObjectPrototype => TyObject
  end.

(** [a === b].  Primitives are compared by value.  The two trees handed
    to [jsonDiff] are separate objects, so two arrays or two plain
    objects met at the same path are never the same reference.  (When
    one and the same object is passed twice, the call returns here
    with no entry, which is also what the recursion yields on equal
    trees, see [jsonDiff_equal_empty].) *)
Definition strict_eq (a b : jsval) : bool :=
  match a, b with
  | Tree JNull, Tree JNull => true
  | Tree (JBool x), Tree (JBool y) => Bool.eqb x y
  | Tree (JNumber x), Tree (JNumber y) => SFeqb x y
  | Tree (JString x), Tree (JString y) => String.eqb x y
  | Undefined, Undefined => true
  | Builtin f, Builtin g => String.eqb f g
  | ObjectPrototype, ObjectPrototype => true
  | _, _ => false
  end.

Definition is_null (x : jsval) : bool :=
  match x with Tree JNull => true | _ => false end.

Definition is_undefined (x : jsval) : bool :=
  match x with Undefined => true | _ => false end.

(** [Array.isArray(x)] *)
Definition isArray (x : jsval) : bool :=
  match x with Tree (JArray _) => true | _ => false end.

(** [x.length] of an array *)
Definition array_length (x : jsval) : nat :=
  match x with Tree (JArray items) => length items | _ => 0 end.

(** [x[i]] of an array *)
Definition index (x : jsval) (i : nat) : jsval :=
  match x with
  | Tree (JArray items) =>
      match nth_error items i with Some v => Tree v | None => Undefined end
  | _ => Undefined
  end.

(** The property names of [Object.prototype]; all are non-enumerable. *)
Definition object_prototype_names : list string :=
  [ "constructor"; "__defineGetter__"; "__defineSetter__"; "hasOwnProperty";
    "__lookupGetter__"; "__lookupSetter__"; "isPrototypeOf";
    "propertyIsEnumerable"; "toString"; "valueOf"; "__proto__";
    "toLocaleString" ].

Fixpoint lookup (k : string) (entries : list (string * value)) : option value :=
  match entries with
  | [] => None
  | (k', v) :: rest => if String.eqb k k' then Some v else lookup k rest
  end.

(** [Object.keys(x)].  This and the next two operations are applied
    to the operands of the last branch of [compare] only, which are
    plain objects or [Object.prototype] ([last_branch_operands]). *)
Definition object_keys (x : jsval) : list string :=
  match x with
  | Tree (JObject entries) => map fst entries
  | _ => []
  end.

(** [key in x]: an own property of [x] or one on its prototype chain. *)
Definition has_property (key : string) (x : jsval) : bool :=
  match x with
  | Tree (JObject entries) =>
      mem key (map fst entries) || mem key object_prototype_names
  | ObjectPrototype => mem key object_prototype_names
  | _ => false
  end.

(** [x[key]] *)
Definition get (x : jsval) (key : string) : jsval :=
  match x with
  | Tree (JObject entries) =>
      match lookup key entries with
      | Some v => Tree v
      | None =>
          if String.eqb key "__proto__" then ObjectPrototype
          else if mem key object_prototype_names then Builtin key
          else Undefined
      end
  | ObjectPrototype =>
      if String.eqb key "__proto__" then Tree JNull
      else if mem key object_prototype_names then Builtin key
      else Undefined
  | _ => Undefined
  end.

Inductive diff_entry : Type :=
| Changed (path : string) (oldValue newValue : jsval)
| Added (path : string) (v : jsval)
| Removed (path : string) (v : jsval).

(** Runs [f] on every element in order and appends what each run
    pushes; fails when a run does. *)
Fixpoint for_each {A B} (f : A -> option (list B)) (l : list A)
  : option (list B) :=
  match l with
  | [] => Some []
  | x :: l' =>
      match f x, for_each f l' with
      | Some r, Some rs => Some (r ++ rs)%list
      | _, _ => None
      end
  end.

(** The closure [compare] of [jsonDiff].  The result is the sequence of
    entries that the call pushes onto [diffs]; [None] means that [fuel]
    nested calls did not suffice. *)
Fixpoint compare (fuel : nat) (a b : jsval) (p : string)
  : option (list diff_entry) :=
  match fuel with
  | O => None
  | S fuel =>
      if strict_eq a b then Some []
      else if is_null a || is_null b
              || negb (js_type_eqb (typeof a) (typeof b))
              || negb (js_type_eqb (typeof a) TyObject) then
        if negb (is_undefined a) && negb (is_undefined b)
        then Some [Changed p a b]
        else if is_undefined a then Some [Added p b]
        else Some [Removed p a]
      else if isArray a && isArray b then
        let maxLen := Nat.max (array_length a) (array_length b) in
        for_each
          (fun i =>
             if Nat.leb (array_length a) i then
               Some [Added (p ++ "[" ++ nat_to_string i ++ "]") (index b i)]
             else if Nat.leb (array_length b) i then
               Some [Removed (p ++ "[" ++ nat_to_string i ++ "]") (index a i)]
             else
               compare fuel (index a i) (index b i)
                       (p ++ "[" ++ nat_to_string i ++ "]"))
          (seq 0 maxLen)
      else if negb (Bool.eqb (isArray a) (isArray b)) then
        Some [Changed p a b]
      else
        let allKeys := new_Set (object_keys a ++ object_keys b)%list in
        for_each
          (fun key =>
             let childPath := p ++ "." ++ key in
             if negb (has_property key a) then
               Some [Added childPath (get b key)]
             else if negb (has_property key b) then
               Some [Removed childPath (get a key)]
             else compare fuel (get a key) (get b key) childPath)
          allKeys
  end.

(** Nesting height of a value handed to [compare]. *)
Definition jsheight (x : jsval) : nat :=
  match x with
  | Tree v => height v
  | ObjectPrototype => 1
  | _ => 0
  end.

(** [jsonDiff(obj1, obj2, path)]; the recursion is given one call more
    than the two heights together, which always suffices
    ([compare_enough]). *)
Definition jsonDiff (obj1 obj2 : jsval) (path : string)
  : option (list diff_entry) :=
  compare (S (jsheight obj1 + jsheight obj2)) obj1 obj2 path.

(** The default value of the parameter [path]. *)
Definition root_path : string := "$".

(** *** Heights and fuel *)

Lemma height_item items v : In v items -> height v < height (JArray items).
Proof.
  simpl. induction items as [| x items IH]; simpl; [tauto|].
  intros [-> | Hin]; [lia | specialize (IH Hin); lia].
Qed.

Lemma height_member entries k v :
  In (k, v) entries -> height v < height (JObject entries).
Proof.
  simpl. induction entries as [| x entries IH]; simpl; [tauto|].
  intros [-> | Hin]; [simpl; lia | specialize (IH Hin); lia].
Qed.

Lemma lookup_In k entries v : lookup k entries = Some v -> In (k, v) entries.
Proof.
  induction entries as [| [k' v'] entries IH]; simpl; [discriminate|].
  destruct (String.eqb_spec k k') as [-> | _].
  - intros [= ->]. now left.
  - intro H. right. auto.
Qed.

Lemma lookup_own k entries :
  In k (map fst entries) -> exists v, lookup k entries = Some v.
Proof.
  induction entries as [| [k' v'] entries IH]; simpl; [tauto|].
  destruct (String.eqb_spec k k') as [-> | Hne]; [eauto|].
  intros [Heq | Hin]; [congruence | auto].
Qed.

Lemma index_height x i :
  i < array_length x -> jsheight (index x i) < jsheight x.
Proof.
  destruct x as [[] | | |]; simpl; try lia.
  intro Hi. destruct (nth_error items i) as [v |] eqn:E.
  - apply nth_error_In in E. apply (height_item _ _ E).
  - apply nth_error_None in E. lia.
Qed.

Lemma get_height_le x key : jsheight (get x key) <= jsheight x.
Proof.
  destruct x as [[] | | |]; cbn [get jsheight height]; try lia.
  - destruct (lookup key entries) as [v |] eqn:E.
    + apply lookup_In in E. apply height_member in E. simpl in *. lia.
    + destruct (String.eqb key "__proto__"); cbn [jsheight]; [lia|].
      destruct (mem key object_prototype_names); cbn [jsheight]; lia.
  - destruct (String.eqb key "__proto__"); cbn [jsheight height]; [lia|].
    destruct (mem key object_prototype_names); cbn [jsheight]; lia.
Qed.

Lemma get_height_lt x key :
  In key (object_keys x) -> jsheight (get x key) < jsheight x.
Proof.
  destruct x as [[] | | |]; simpl; try tauto.
  intro Hin. destruct (lookup_own _ _ Hin) as (v & E). rewrite E.
  apply lookup_In in E. apply (height_member _ _ _ E).
Qed.

Lemma set_from_In k seen l : In k (set_from seen l) -> In k l.
Proof.
  revert seen. induction l as [| x l IH]; intro seen; simpl; [tauto|].
  destruct (mem x seen); [eauto|].
  intros [-> | Hin]; eauto.
Qed.

Lemma for_each_total {A B} (f : A -> option (list B)) l :
  (forall x, In x l -> exists r, f x = Some r) ->
  exists rs, for_each f l = Some rs.
Proof.
  induction l as [| x l IH]; intro H; simpl; [eauto|].
  destruct (H x (or_introl eq_refl)) as (r & ->).
  destruct IH as (rs & ->); [intros; apply H; now right | eauto].
Qed.

Lemma for_each_ext {A B} (f g : A -> option (list B)) l rs :
  (forall x r, In x l -> f x = Some r -> g x = Some r) ->
  for_each f l = Some rs -> for_each g l = Some rs.
Proof.
  revert rs. induction l as [| x l IH]; intros rs H; simpl; [auto|].
  destruct (f x) as [r |] eqn:Ef; [| discriminate].
  destruct (for_each f l) as [rs' |] eqn:El; [| discriminate].
  intros [= <-].
  rewrite (H x r (or_introl eq_refl) Ef).
  rewrite (IH rs'); auto.
  intros; apply H; auto. now right.
Qed.

(** The two operands of the last branch of [compare] are plain objects
    or [Object.prototype]. *)
Definition object_like (x : jsval) : bool :=
  match x with Tree (JObject _) | ObjectPrototype => true | _ => false end.

Lemma last_branch_operands a b :
  strict_eq a b = false ->
  is_null a || is_null b || negb (js_type_eqb (typeof a) (typeof b))
    || negb (js_type_eqb (typeof a) TyObject) = false ->
  isArray a && isArray b = false ->
  negb (Bool.eqb (isArray a) (isArray b)) = false ->
  object_like a = true /\ object_like b = true.
Proof.
  destruct a as [[] | | |], b as [[] | | |]; simpl; intros; auto; discriminate.
Qed.

(** Fuel beyond the two heights is always enough. *)
Lemma compare_enough n : forall a b p,
  jsheight a + jsheight b < n -> exists r, compare n a b p = Some r.
Proof.
  induction n as [| n IH]; intros a b p Hn; [lia|].
  cbn [compare].
  destruct (strict_eq a b) eqn:Eeq; [eauto|].
  destruct (is_null a || is_null b || _ || _) eqn:Eleaf.
  { destruct (negb (is_undefined a) && negb (is_undefined b)); [eauto|].
    destruct (is_undefined a); eauto. }
  destruct (isArray a && isArray b) eqn:Earr.
  { apply for_each_total. intros i Hi. apply in_seq in Hi.
    destruct (Nat.leb_spec (array_length a) i); [eauto|].
    destruct (Nat.leb_spec (array_length b) i); [eauto|].
    apply IH.
    pose proof (index_height a i). pose proof (index_height b i). lia. }
  destruct (negb (Bool.eqb (isArray a) (isArray b))) eqn:Ekind; [eauto|].
  apply for_each_total. intros key Hkey.
  destruct (negb (has_property key a)); [eauto|].
  destruct (negb (has_property key b)); [eauto|].
  apply IH.
  apply set_from_In, in_app_or in Hkey.
  pose proof (get_height_le a key). pose proof (get_height_le b key).
  destruct Hkey as [Hk | Hk]; apply get_height_lt in Hk; lia.
Qed.

(** A result does not depend on how much spare fuel there is. *)
Lemma compare_more_fuel n : forall m a b p r,
  n <= m -> compare n a b p = Some r -> compare m a b p = Some r.
Proof.
  induction n as [| n IH]; intros m a b p r Hle; [discriminate|].
  destruct m as [| m]; [lia|].
  cbn [compare].
  destruct (strict_eq a b); [auto|].
  destruct (is_null a || is_null b || _ || _); [auto|].
  destruct (isArray a && isArray b).
  { apply for_each_ext. intros i r' _.
    destruct (Nat.leb (array_length a) i); [auto|].
    destruct (Nat.leb (array_length b) i); [auto|].
    apply IH. lia. }
  destruct (negb (Bool.eqb (isArray a) (isArray b))); [auto|].
  apply for_each_ext. intros key r' _.
  destruct (negb (has_property key a)); [auto|].
  destruct (negb (has_property key b)); [auto|].
  apply IH. lia.
Qed.

(** With enough fuel [compare] is [jsonDiff]. *)
Lemma compare_jsonDiff n a b p :
  jsheight a + jsheight b < n -> compare n a b p = jsonDiff a b p.
Proof.
  intro Hn. unfold jsonDiff.
  destruct (compare_enough (S (jsheight a + jsheight b)) a b p) as (r & E);
    [lia|].
  rewrite E. apply (compare_more_fuel _ _ _ _ _ _ Hn E).
Qed.

(** [jsonDiff] always returns a list of entries. *)
Lemma jsonDiff_total a b p : exists r, jsonDiff a b p = Some r.
Proof. apply compare_enough. lia. Qed.

Lemma for_each_pointwise {A B} (f g : A -> option (list B)) l :
  (forall x, In x l -> f x = g x) -> for_each f l = for_each g l.
Proof.
  induction l as [| x l IH]; intro H; simpl; [reflexivity|].
  rewrite (H x (or_introl eq_refl)), IH; [reflexivity|].
  intros; apply H; now right.
Qed.

Lemma for_each_silent {A B} (f : A -> option (list B)) l :
  (forall x, In x l -> f x = Some []) -> for_each f l = Some [].
Proof.
  induction l as [| x l IH]; intro H; simpl; [reflexivity|].
  rewrite (H x (or_introl eq_refl)), IH; [reflexivity|].
  intros; apply H; now right.
Qed.

(** *** Lists *)

(** The path of element [i] under [p]. *)
Definition item_path (p : string) (i : nat) : string :=
  p ++ "[" ++ nat_to_string i ++ "]".


(** *** Objects *)

(** The path of member [key] under [p]. *)
Definition member_path (p key : string) : string := p ++ "." ++ key.

(** The recursion equation of [jsonDiff] on two plain objects. *)
Lemma jsonDiff_objects (ea eb : list (string * value)) (p : string) :
  jsonDiff (Tree (JObject ea)) (Tree (JObject eb)) p =
  for_each
    (fun key =>
       if negb (has_property key (Tree (JObject ea))) then
         Some [Added (member_path p key) (get (Tree (JObject eb)) key)]
       else if negb (has_property key (Tree (JObject eb))) then
         Some [Removed (member_path p key) (get (Tree (JObject ea)) key)]
       else jsonDiff (get (Tree (JObject ea)) key) (get (Tree (JObject eb)) key)
                     (member_path p key))
    (new_Set (map fst ea ++ map fst eb)%list).
Proof.
  unfold jsonDiff at 1. cbn [compare strict_eq is_null typeof js_type_eqb
    orb negb isArray andb Bool.eqb object_keys].
  apply for_each_pointwise. intros key Hkey.
  destruct (negb (has_property key (Tree (JObject ea)))); [reflexivity|].
  destruct (negb (has_property key (Tree (JObject eb)))); [reflexivity|].
  apply compare_jsonDiff.
  apply set_from_In, in_app_or in Hkey.
  pose proof (get_height_le (Tree (JObject ea)) key).
  pose proof (get_height_le (Tree (JObject eb)) key).
  destruct Hkey as [Hk | Hk];
    [apply (get_height_lt (Tree (JObject ea))) in Hk
    |apply (get_height_lt (Tree (JObject eb))) in Hk];
    cbn [jsheight] in *; lia.
Qed.

(** *** Equal operands *)




(** *** The key scan *)

Lemma set_from_seen s1 s2 l :
  (forall k, mem k s1 = mem k s2) -> set_from s1 l = set_from s2 l.
Proof.
  revert s1 s2. induction l as [| x l IH]; intros s1 s2 H; simpl; [reflexivity|].
  rewrite <- (H x). destruct (mem x s1) eqn:E; [auto|].
  f_equal. apply IH. intro k. simpl. now rewrite H.
Qed.

Lemma set_from_app seen l1 : forall s2 l2,
  (forall k, mem k s2 = mem k seen || mem k l1) ->
  set_from seen (l1 ++ l2)%list = (set_from seen l1 ++ set_from s2 l2)%list.
Proof.
  revert seen. induction l1 as [| x l1 IH]; intros seen s2 l2 H; simpl.
  - apply set_from_seen. intro k. rewrite H. simpl. now rewrite orb_false_r.
  - destruct (mem x seen) eqn:E.
    + apply IH. intro k. rewrite H. simpl.
      destruct (String.eqb_spec k x) as [-> |]; [now rewrite E | reflexivity].
    + simpl. f_equal. apply IH. intro k. rewrite H. simpl.
      destruct (String.eqb k x), (mem k seen); reflexivity.
Qed.

Lemma set_from_NoDup seen l :
  NoDup l -> set_from seen l = filter (fun k => negb (mem k seen)) l.
Proof.
  intro Hl. revert seen.
  induction Hl as [| x l Hx _ IH]; intro seen; simpl; [reflexivity|].
  destruct (mem x seen) eqn:E; simpl; [apply IH|].
  f_equal. rewrite IH. apply filter_ext_in. intros k Hk. simpl.
  destruct (String.eqb_spec k x) as [-> |]; [contradiction | reflexivity].
Qed.

(** [new Set([...ka, ...kb])] lists [ka], then what [kb] adds to it. *)
Lemma new_Set_union ka kb :
  NoDup ka -> NoDup kb ->
  new_Set (ka ++ kb)%list = (ka ++ filter (fun k => negb (mem k ka)) kb)%list.
Proof.
  intros Ha Hb. unfold new_Set.
  rewrite (set_from_app [] ka ka kb) by reflexivity.
  rewrite (set_from_NoDup _ _ Ha), (set_from_NoDup _ _ Hb).
  f_equal. simpl. clear. induction ka; simpl; congruence.
Qed.

(** On objects none of whose property names is one of
    [object_prototype_names], [jsonDiff] scans the left names in order,
    then the names that only the right object has in its order; a name
    of the right object alone yields [Added], one of the left object
    alone yields [Removed], and one of both yields the diff of the two
    member values. *)
Lemma jsonDiff_objects_own_names (ea eb : list (string * value)) (p : string) :
  NoDup (map fst ea) -> NoDup (map fst eb) ->
  (forall k, In k (map fst ea ++ map fst eb)%list ->
             ~ In k object_prototype_names) ->
  jsonDiff (Tree (JObject ea)) (Tree (JObject eb)) p =
  for_each
    (fun key =>
       match lookup key ea, lookup key eb with
       | Some x, Some y => jsonDiff (Tree x) (Tree y) (member_path p key)
       | None, Some y => Some [Added (member_path p key) (Tree y)]
       | Some x, None => Some [Removed (member_path p key) (Tree x)]
       | None, None => Some []
       end)
    (map fst ea ++
     filter (fun k => negb (mem k (map fst ea))) (map fst eb))%list.
Proof.
  intros Ha Hb Hown. rewrite jsonDiff_objects, (new_Set_union _ _ Ha Hb).
  apply for_each_pointwise. intros key Hkey.
  assert (Hk : In key (map fst ea ++ map fst eb)%list).
  { apply in_app_or in Hkey. apply in_or_app.
    destruct Hkey as [H | H]; [now left | right].
    now apply filter_In in H. }
  assert (Hproto : mem key object_prototype_names = false).
  { destruct (mem key object_prototype_names) eqn:E; [| reflexivity].
    apply mem_In in E. now apply Hown in E. }
  assert (Hne : String.eqb key "__proto__" = false).
  { destruct (String.eqb_spec key "__proto__") as [-> |]; [| reflexivity].
    discriminate Hproto. }
  unfold has_property, get. rewrite Hproto, Hne, !orb_false_r.
  destruct (lookup key ea) as [x |] eqn:Ex, (lookup key eb) as [y |] eqn:Ey.
  - apply lookup_In in Ex, Ey.
    apply (in_map fst) in Ex, Ey. apply mem_In in Ex, Ey.
    simpl in Ex, Ey. now rewrite Ex, Ey.
  - apply lookup_In, (in_map fst), mem_In in Ex. simpl in Ex. rewrite Ex.
    destruct (mem key (map fst eb)) eqn:E; [| reflexivity].
    apply mem_In, lookup_own in E. destruct E as (y & E). congruence.
  - destruct (mem key (map fst ea)) eqn:E; [| reflexivity].
    apply mem_In, lookup_own in E. destruct E as (x & E). congruence.
  - exfalso. apply in_app_or in Hk.
    destruct Hk as [H | H]; apply lookup_own in H; destruct H; congruence.
Qed.

(** Example 3 of the specification: [diff({"a":1}, {"b":1})]. *)
Example jsonDiff_removed_then_added :
  jsonDiff (Tree (JObject [("a", JNumber num_one)]))
           (Tree (JObject [("b", JNumber num_one)])) root_path =
  Some [ Removed "$.a" (Tree (JNumber num_one));
         Added "$.b" (Tree (JNumber num_one)) ].
Proof. reflexivity. Qed.

(** C1, at the input [diff({}, {"toString": 1})].  The name [toString]
    is a property of the right object only, yet [key in a] holds,
    because the left object inherits [toString] from
    [Object.prototype]; the inherited function is compared with the
    right member and the entry is [Changed], not [Added]. *)
Theorem jsonDiff_inherited_name_changed :
  has_property "toString" (Tree (JObject [])) = true /\
  jsonDiff (Tree (JObject []))
           (Tree (JObject [("toString", JNumber num_one)])) root_path =
  Some [ Changed "$.toString" (Builtin "toString") (Tree (JNumber num_one)) ].
Proof. split; reflexivity. Qed.

End Diff.

(** ** Escaping *)

(** What the three chained replacements make of one character. *)
Definition escape_text_char (c : ascii) : string :=
  if Ascii.eqb c amp then "&amp;"
  else if Ascii.eqb c lt then "&lt;"
  else if Ascii.eqb c gt then "&gt;"
  else String c "".

Definition escape_attr_char (c : ascii) : string :=
  if Ascii.eqb c quot then "&quot;" else escape_text_char c.

Fixpoint expand (f : ascii -> string) (s : string) : string :=
  match s with
  | EmptyString => EmptyString
  | String c s' => f c ++ expand f s'
  end.

Lemma append_assoc (s t u : string) : (s ++ t) ++ u = s ++ (t ++ u).
Proof. induction s; simpl; congruence. Qed.

Lemma append_nil_r (s : string) : s ++ "" = s.
Proof. induction s; simpl; congruence. Qed.

Lemma replace_char_app c r s t :
  replace_char c r (s ++ t) = replace_char c r s ++ replace_char c r t.
Proof.
  induction s as [| x s IH]; simpl; [reflexivity|].
  destruct (Ascii.eqb x c); simpl; rewrite IH; [| reflexivity].
  now rewrite append_assoc.
Qed.

(** The chain of replacements acts on each character on its own: the
    text that an earlier replacement inserts holds no character that a
    later one replaces. *)
Lemma escape_text_expand s : escape_text s = expand escape_text_char s.
Proof.
  unfold escape_text. induction s as [| c s IH]; [reflexivity|].
  cbn [replace_char expand]. unfold escape_text_char.
  destruct (Ascii.eqb c amp) eqn:Ea.
  - rewrite !replace_char_app, IH. reflexivity.
  - cbn [replace_char]. destruct (Ascii.eqb c lt) eqn:El.
    + rewrite replace_char_app, IH. reflexivity.
    + cbn [replace_char]. destruct (Ascii.eqb c gt) eqn:Eg.
      * rewrite IH. reflexivity.
      * rewrite IH. reflexivity.
Qed.

Lemma escape_attr_expand s : escape_attr s = expand escape_attr_char s.
Proof.
  unfold escape_attr. rewrite escape_text_expand.
  induction s as [| c s IH]; [reflexivity|].
  cbn [expand]. rewrite replace_char_app, IH. f_equal.
  unfold escape_attr_char, escape_text_char.
  destruct (Ascii.eqb c quot) eqn:Eq.
  - apply Ascii.eqb_eq in Eq. subst c. reflexivity.
  - destruct (Ascii.eqb c amp); [reflexivity|].
    destruct (Ascii.eqb c lt); [reflexivity|].
    destruct (Ascii.eqb c gt); [reflexivity|].
    cbn [replace_char]. now rewrite Eq.
Qed.

Lemma contains_char_app c s t :
  contains_char c (s ++ t) = contains_char c s || contains_char c t.
Proof.
  induction s as [| x s IH]; simpl; [reflexivity|].
  now rewrite IH, orb_assoc.
Qed.

Lemma expand_lacks c f s :
  (forall x, contains_char c (f x) = false) ->
  contains_char c (expand f s) = false.
Proof.
  intro H. induction s as [| x s IH]; simpl; [reflexivity|].
  now rewrite contains_char_app, H, IH.
Qed.

Lemma escape_text_char_lacks c x :
  c = lt \/ c = gt -> contains_char c (escape_text_char x) = false.
Proof.
  unfold escape_text_char.
  destruct (Ascii.eqb x amp) eqn:Ea; [intros [-> | ->]; reflexivity|].
  destruct (Ascii.eqb x lt) eqn:El; [intros [-> | ->]; reflexivity|].
  destruct (Ascii.eqb x gt) eqn:Eg; [intros [-> | ->]; reflexivity|].
  intros [-> | ->]; simpl; rewrite ?El, ?Eg; reflexivity.
Qed.

(** Escaped text holds neither [<] nor [>]. *)
Lemma escape_text_lacks s :
  contains_char lt (escape_text s) = false /\
  contains_char gt (escape_text s) = false.
Proof.
  rewrite escape_text_expand. split; apply expand_lacks; intro x;
    apply escape_text_char_lacks; auto.
Qed.





(** ** XML transcoder ([jsonToXml]) *)

Module Xml.

(** ['  '.repeat(level)] *)
Fixpoint pad_of (level : nat) : string :=
  match level with
  | O => ""
  | S l => "  " ++ pad_of l
  end.

Section WithNumberToString.

(** [Number::toString], the decimal rendering of a double. *)
Variable Number_toString : spec_float -> string.

(** [String(x)] and template interpolation of a value that is not an
    array or a plain object; neither call site passes one of those. *)
Definition to_String (x : value) : string :=
  match x with
  | JNull => "null"
  | JBool true => "true"
  | JBool false => "false"
  | JNumber n => Number_toString n
  | JString s => s
  | JArray _ | JObject _ => ""
  end.

(** The closure [convert]; the result is the text that the call
    appends to [xml]. *)
Fixpoint convert (data : value) (tag : string) (level : nat) : string :=
  let pad := pad_of level in
  match data with
  | JArray items =>
      concat_strings (map (fun item => convert item tag level) items)
  | JObject entries =>
      (pad ++ "<" ++ tag ++ ">" ++ nl)
      ++ concat_strings
           (map (fun e => convert (snd e) (fst e) (level + 1)) entries)
      ++ (pad ++ "</" ++ tag ++ ">" ++ nl)
  | _ =>
      let val :=
        match data with
        | JNull => ""
        | _ => escape_text (to_String data)
        end in
      pad ++ "<" ++ tag ++ ">" ++ val ++ "</" ++ tag ++ ">" ++ nl
  end.

Definition xml_declaration : string :=
  "<?xml version=" ++ String quot "1.0" ++ String quot " encoding="
  ++ String quot "UTF-8" ++ String quot "?>" ++ nl.

Definition jsonToXml (obj : value) (rootName : string) : string :=
  let xml := "" in
  let xml := xml ++ xml_declaration in
  match obj with
  | JArray items =>
      let xml := xml ++ ("<" ++ rootName ++ ">" ++ nl) in
      let xml :=
        xml ++ concat_strings (map (fun item => convert item "item" 1) items) in
      xml ++ ("</" ++ rootName ++ ">" ++ nl)
  | JObject entries =>
      let xml := xml ++ ("<" ++ rootName ++ ">" ++ nl) in
      let xml :=
        xml ++ concat_strings
                 (map (fun e => convert (snd e) (fst e) 1) entries) in
      xml ++ ("</" ++ rootName ++ ">" ++ nl)
  | _ =>
      xml ++ ("<" ++ rootName ++ ">" ++ to_String obj
              ++ "</" ++ rootName ++ ">" ++ nl)
  end.

Definition is_scalar (v : value) : bool :=
  match v with JArray _ | JObject _ => false | _ => true end.

(** The text content that the specification asks for a scalar. *)
Definition scalar_content (v : value) : string :=
  match v with
  | JNull => ""
  | _ => escape_text (to_String v)
  end.

(** Below the root, a scalar under [tag] is the one line
    [<tag>content</tag>], with escaped content and none for [null]. *)
Lemma convert_scalar (v : value) (tag : string) (level : nat) :
  is_scalar v = true ->
  convert v tag level =
  pad_of level ++ "<" ++ tag ++ ">" ++ scalar_content v
  ++ "</" ++ tag ++ ">" ++ nl.
Proof. destruct v; simpl; intro H; try discriminate; reflexivity. Qed.

Lemma scalar_content_lacks (v : value) :
  contains_char lt (scalar_content v) = false /\
  contains_char gt (scalar_content v) = false.
Proof.
  destruct v; try apply escape_text_lacks; split; reflexivity.
Qed.

(** C2, at the inputs [jsonToXml("a<b&c", "root")] and
    [jsonToXml(null, "root")].  A scalar root is interpolated as it is:
    [<] and [&] stay unescaped and [null] is written out, whereas the
    same scalars below the root are escaped and left empty. *)
Theorem jsonToXml_scalar_root_unescaped :
  jsonToXml (JString "a<b&c") "root" =
    xml_declaration ++ "<root>a<b&c</root>" ++ nl /\
  jsonToXml JNull "root" = xml_declaration ++ "<root>null</root>" ++ nl /\
  convert (JString "a<b&c") "root" 0 = "<root>a&lt;b&amp;c</root>" ++ nl /\
  convert JNull "root" 0 = "<root></root>" ++ nl.
Proof. repeat split; reflexivity. Qed.

End WithNumberToString.

End Xml.

(** ** Tree view ([buildTreeHTML]) *)

Module TreeView.

Section WithHost.

(** [Number::toString]. *)
Variable Number_toString : spec_float -> string.

(** [Math.random().toString(36).substr(2, 9)] at the [k]-th call of
    [Math.random] during one rendering. *)
Variable random_suffix : nat -> string.

Definition key_span (childPath : string) (isArray : bool) (key : string)
  : string :=
  if negb isArray then
    "<span class=" ++ dq "tree-key" ++ " data-path=" ++ dq childPath
    ++ " onclick=" ++ dq ("copyPath('" ++ childPath ++ "')")
    ++ " title=" ++ dq "Click to copy path" ++ ">"
    ++ dq key ++ "</span><span class=" ++ dq "tree-colon" ++ ">:</span> "
  else
    "<span class=" ++ dq "tree-key" ++ " data-path=" ++ dq childPath
    ++ " onclick=" ++ dq ("copyPath('" ++ childPath ++ "')")
    ++ " title=" ++ dq "Click to copy path"
    ++ " style=" ++ dq "color:var(--text-muted);font-size:0.78rem;" ++ ">"
    ++ key ++ "</span><span class=" ++ dq "tree-colon" ++ ">:</span> ".

Definition comma_span (idx count : nat) : string :=
  if Nat.ltb idx (count - 1)
  then "<span class=" ++ dq "tree-comma" ++ ">,</span>"
  else "".

(** The markup that opens a container with [count] children. *)
Definition open_node (isArray : bool) (count : nat) (id : string) : string :=
  let openBr := if isArray then "[" else "{" in
  let html := "" in
  let html :=
    html ++ "<span class=" ++ dq "tree-toggle"
    ++ " onclick=" ++ dq ("toggleTreeNode('" ++ id ++ "')")
    ++ " id=" ++ dq ("toggle-" ++ id) ++ ">▼</span>" in
  let html :=
    html ++ "<span class=" ++ dq "tree-bracket" ++ ">" ++ openBr ++ "</span>" in
  let html :=
    html ++ "<span class=" ++ dq "tree-count" ++ ">" ++ nat_to_string count
    ++ " " ++ (if isArray then "items" else "keys") ++ "</span>" in
  html ++ "<div class=" ++ dq "tree-node" ++ " id=" ++ dq id ++ ">".

Definition close_node (isArray : bool) : string :=
  let closeBr := if isArray then "]" else "}" in
  "</div><span class=" ++ dq "tree-bracket" ++ ">" ++ closeBr ++ "</span>".

Definition empty_node (isArray : bool) : string :=
  "<span class=" ++ dq "tree-bracket" ++ ">"
  ++ (if isArray then "[" else "{") ++ (if isArray then "]" else "}")
  ++ "</span>".

(** [buildTreeHTML(data, path, isLast)].  The second argument and
    component count the calls of [Math.random] made so far. *)
Fixpoint buildTreeHTML (data : value) (path : string) (isLast : bool)
  (rng : nat) : string * nat :=
  match data with
  | JNull =>
      ("<span class=" ++ dq "tree-null" ++ " data-path=" ++ dq path
       ++ ">null</span>", rng)
  | JString s =>
      let escaped := escape_attr s in
      ("<span class=" ++ dq "tree-string" ++ " data-path=" ++ dq path ++ ">"
       ++ dq escaped ++ "</span>", rng)
  | JBool b =>
      ("<span class=" ++ dq "tree-boolean" ++ " data-path=" ++ dq path ++ ">"
       ++ (if b then "true" else "false") ++ "</span>", rng)
  | JNumber n =>
      ("<span class=" ++ dq "tree-number" ++ " data-path=" ++ dq path ++ ">"
       ++ Number_toString n ++ "</span>", rng)
  | JArray items =>
      let count := length items in
      let id := "node-" ++ random_suffix rng in
      let rng := S rng in
      if Nat.eqb count 0 then (empty_node true, rng)
      else
        let html := open_node true count id in
        let '(html, rng) :=
          (fix each (l : list value) (idx : nat) (html : string) (rng : nat)
             : string * nat :=
             match l with
             | [] => (html, rng)
             | value :: l' =>
                 let key := nat_to_string idx in
                 let childPath := path ++ "[" ++ key ++ "]" in
                 let comma := comma_span idx count in
                 let html := html ++ "<div class=" ++ dq "tree-line" ++ ">" in
                 let html := html ++ key_span childPath true key in
                 let '(sub, rng) :=
                   buildTreeHTML value childPath (Nat.eqb idx (count - 1)) rng in
                 let html := html ++ sub in
                 let html := html ++ comma in
                 let html := html ++ "</div>" in
                 each l' (S idx) html rng
             end) items 0 html rng in
        (html ++ close_node true, rng)
  | JObject entries =>
      let count := length entries in
      let id := "node-" ++ random_suffix rng in
      let rng := S rng in
      if Nat.eqb count 0 then (empty_node false, rng)
      else
        let html := open_node false count id in
        let '(html, rng) :=
          (fix each (l : list (string * value)) (idx : nat) (html : string)
             (rng : nat) : string * nat :=
             match l with
             | [] => (html, rng)
             | (key, value) :: l' =>
                 let childPath := path ++ "." ++ key in
                 let comma := comma_span idx count in
                 let html := html ++ "<div class=" ++ dq "tree-line" ++ ">" in
                 let html := html ++ key_span childPath false key in
                 let '(sub, rng) :=
                   buildTreeHTML value childPath (Nat.eqb idx (count - 1)) rng in
                 let html := html ++ sub in
                 let html := html ++ comma in
                 let html := html ++ "</div>" in
                 each l' (S idx) html rng
             end) entries 0 html rng in
        (html ++ close_node false, rng)
  end.



End WithHost.

End TreeView.

(** ** Parsing with diagnostics ([parseJSON]) *)

Module Parse.

(** Lower case of an ASCII letter, for the flag [i]. *)
Definition to_lower (c : ascii) : ascii :=
  let n := nat_of_ascii c in
  if Nat.leb 65 n && Nat.leb n 90 then ascii_of_nat (n + 32) else c.

(** The rest of [s] after a leading [pat], letter case ignored. *)
Fixpoint strip_prefix_ci (pat s : string) : option string :=
  match pat, s with
  | EmptyString, _ => Some s
  | String p pat', String c s' =>
      if Ascii.eqb (to_lower p) (to_lower c) then strip_prefix_ci pat' s'
      else None
  | String _ _, EmptyString => None
  end.

Fixpoint skip_spaces (s : string) : string :=
  match s with
  | String c s' => if is_space c then skip_spaces s' else s
  | EmptyString => s
  end.

Fixpoint take_digits (s : string) : string :=
  match s with
  | String c s' => if is_digit c then String c (take_digits s') else ""
  | EmptyString => ""
  end.

(** [/position\s+(\d+)/i] anchored at the start of [s]: the text of the
    group.  Both quantifiers are greedy and neither can give back a
    character that the next item would accept. *)
Definition match_position_here (s : string) : option string :=
  match strip_prefix_ci "position" s with
  | Some (String c rest) =>
      if is_space c then
        match take_digits (skip_spaces rest) with
        | EmptyString => None
        | digits => Some digits
        end
      else None
  | _ => None
  end.

(** [msg.match(/position\s+(\d+)/i)]: group 1 of the leftmost match. *)
Fixpoint match_position (msg : string) : option string :=
  match match_position_here msg with
  | Some digits => Some digits
  | None =>
      match msg with
      | EmptyString => None
      | String _ msg' => match_position msg'
      end
  end.

(** [parseInt] of a run of decimal digits. *)
Definition parseInt (digits : string) : nat :=
  (fix go (acc : nat) (s : string) : nat :=
     match s with
     | EmptyString => acc
     | String c s' => go (10 * acc + (nat_of_ascii c - 48)) s'
     end) 0 digits.

(** [s.split('\n')] *)
Fixpoint split_lines (s : string) : list string :=
  match s with
  | EmptyString => [""]
  | String c s' =>
      if Ascii.eqb c newline then "" :: split_lines s'
      else
        match split_lines s' with
        | first :: rest => String c first :: rest
        | [] => [String c ""]
        end
  end.

Record parse_error : Type := mkError {
  message : string;
  line : option nat;
  col : option nat
}.

Record parse_result : Type := mkResult {
  success : bool;
  data : option value;
  error : option parse_error
}.

Section WithJSONParse.

(** [JSON.parse]: the parsed value, or the message of the
    [SyntaxError] that it throws. *)
Variable JSON_parse : string -> value + string.

Definition parseJSON (text : string) : parse_result :=
  match JSON_parse text with
  | inl data => mkResult true (Some data) None
  | inr e_message =>
      let '(line, col) :=
        match match_position e_message with
        | Some digits =>
            let pos := parseInt digits in
            let lines := split_lines (substring 0 pos text) in
            (Some (length lines),
             Some (String.length (last lines "") + 1))
        | None => (None, None)
        end in
      mkResult false None (Some (mkError e_message line col))
  end.

(** The scan of the specification over the prefix before the failure:
    rows are counted from 1 and a row ends at each newline; the
    column is the distance from the last newline, plus 1. *)
Fixpoint scan (prefix : string) (row column : nat) : nat * nat :=
  match prefix with
  | EmptyString => (row, column)
  | String c rest =>
      if Ascii.eqb c newline then scan rest (S row) 1
      else scan rest row (S column)
  end.

Definition row_and_column (text : string) (offset : nat) : nat * nat :=
  scan (substring 0 offset text) 1 1.

Lemma split_lines_length s : 1 <= length (split_lines s).
Proof.
  induction s as [| c s IH]; simpl; [lia|].
  destruct (Ascii.eqb c newline); simpl; [lia|].
  destruct (split_lines s); simpl; lia.
Qed.

Lemma scan_split_lines s : forall row column,
  scan s row column =
  (row + (length (split_lines s) - 1),
   (if Nat.eqb (length (split_lines s)) 1 then column else 1)
   + String.length (last (split_lines s) "")).
Proof.
  induction s as [| c s IH]; intros row column.
  - simpl. f_equal; lia.
  - pose proof (split_lines_length s) as Hlen.
    cbn [scan split_lines]. destruct (Ascii.eqb c newline).
    + rewrite IH. destruct (split_lines s) as [| first rest] eqn:E;
        [simpl in Hlen; lia|].
      cbn [length Nat.sub Nat.eqb].
      replace (last ("" :: first :: rest) "") with (last (first :: rest) "")
        by reflexivity.
      destruct rest; cbn [length Nat.eqb Nat.sub]; f_equal; lia.
    + rewrite IH. destruct (split_lines s) as [| first rest] eqn:E;
        [simpl in Hlen; lia|].
      destruct rest as [| second rest].
      * simpl. f_equal; lia.
      * replace (last (String c first :: second :: rest) "")
          with (last (first :: second :: rest) "") by reflexivity.
        cbn [length Nat.eqb Nat.sub]. f_equal.
Qed.

(** When [JSON.parse] fails, [parseJSON] returns a failure record that
    carries the message.  Line and column are read off the message: if
    the word [position] and a number occur in it, the line is the
    number of newline-delimited rows of the text before the offset of
    that number, counted from 1, and the column is the distance from
    the last newline before it, plus 1; if not, line and column are
    both absent. *)
Lemma parseJSON_reports_named_position (text e_message : string) :
  JSON_parse text = inr e_message ->
  exists err,
    parseJSON text = mkResult false None (Some err) /\
    message err = e_message /\
    match match_position e_message with
    | Some digits =>
        line err = Some (fst (row_and_column text (parseInt digits))) /\
        col err = Some (snd (row_and_column text (parseInt digits)))
    | None => line err = None /\ col err = None
    end.
Proof.
  intro Hfail. unfold parseJSON. rewrite Hfail.
  destruct (match_position e_message) as [digits |].
  - eexists. split; [reflexivity|]. split; [reflexivity|].
    unfold row_and_column. rewrite scan_split_lines. cbn [fst snd line col].
    pose proof (split_lines_length (substring 0 (parseInt digits) text)).
    destruct (Nat.eqb _ 1); split; f_equal; lia.
  - eexists. repeat split.
Qed.

End WithJSONParse.

(** An engine that rejects every text at position 4. *)
Definition failing_parse (text : string) : value + string :=
  inr "Unexpected token } in JSON at position 4".

(** *** A message that quotes the text *)

(** The message of V8 (as in Node 20 and in Chrome) for a code unit
    that cannot stand where it is met, when the text is short: the
    code unit between apostrophes and the whole text between double
    quotes. *)
Definition unexpected_token_message (token : ascii) (text : string)
  : string :=
  "Unexpected token '" ++ String token "', " ++ dq text
  ++ " is not valid JSON".

(** An object with the key [position 1], three newlines, and an [x]
    where the value of the member is due. *)
Definition misleading_text : string :=
  "{" ++ dq "position 1" ++ ":" ++ nl ++ nl ++ nl ++ "x}".

(** C3 fails at [misleading_text] on an engine whose message quotes
    the text.  The failure is at the [x], the only one of the text, at
    offset 17: row 4, column 1.  The message names no offset, so the
    claim asks for an unknown line and column; but the quoted text
    holds the word [position] and the number 1, and [parseJSON]
    reports the place of offset 1: line 1, column 2.  The failure is
    still returned as a record and not thrown. *)
Theorem parseJSON_position_from_quoted_text
  (JSON_parse : string -> value + string) :
  JSON_parse misleading_text =
    inr (unexpected_token_message "x" misleading_text) ->
  (forall offset,
     String.get offset misleading_text = Some "x"%char <-> offset = 17) /\
  row_and_column misleading_text 17 = (4, 1) /\
  parseJSON JSON_parse misleading_text =
    mkResult false None
      (Some (mkError (unexpected_token_message "x" misleading_text)
                     (Some 1) (Some 2))).
Proof.
  intro Hfail. split; [| split; [reflexivity|]].
  - intro offset. split; [| intros ->; reflexivity].
    do 19 (destruct offset as [| offset];
           [vm_compute; intro H; try discriminate H; reflexivity|]).
    vm_compute. discriminate.
  - unfold parseJSON. rewrite Hfail. reflexivity.
Qed.

(** An engine that rejects every text with that message. *)
Definition quoting_parse (text : string) : value + string :=
  inr (unexpected_token_message "x" text).

Lemma parseJSON_position_from_quoted_text_witness :
  quoting_parse misleading_text =
    inr (unexpected_token_message "x" misleading_text) /\
  row_and_column misleading_text 17 = (4, 1) /\
  parseJSON quoting_parse misleading_text =
    mkResult false None
      (Some (mkError (unexpected_token_message "x" misleading_text)
                     (Some 1) (Some 2))).
Proof.
  split; [reflexivity|].
  exact (proj2 (parseJSON_position_from_quoted_text quoting_parse eq_refl)).
Defined.

End Parse.

(** ** Interface description ([jsonToTypeScript]) *)

Module TypeScript.

Fixpoint filter_string (f : ascii -> bool) (s : string) : string :=
  match s with
  | EmptyString => EmptyString
  | String c s' =>
      if f c then String c (filter_string f s') else filter_string f s'
  end.

Section WithToUpperCase.

(** [String.prototype.toUpperCase] on the string of one code unit that
    [charAt(0)] returns.  The capital of a code unit can be two code
    units long (the sharp s) and, for the code units 181 and 255, lies
    outside the code units that a [string] holds, so the function is a
    parameter; of the empty string it is the empty string. *)
Variable toUpperCase : ascii -> string.

(** [str.charAt(0).toUpperCase() + str.slice(1).replace(/[^a-zA-Z0-9]/g, '')] *)
Definition capitalize (str : string) : string :=
  match str with
  | EmptyString => EmptyString
  | String c rest => toUpperCase c ++ filter_string is_alnum rest
  end.

(** [name.replace(/s$/, '')] *)
Fixpoint strip_s (name : string) : string :=
  match name with
  | EmptyString => EmptyString
  | String c EmptyString => if Ascii.eqb c "s" then EmptyString else name
  | String c rest => String c (strip_s rest)
  end.

(** [/^[a-zA-Z_$][a-zA-Z0-9_$]*$/.test(key)] *)
Definition is_identifier (key : string) : bool :=
  match key with
  | EmptyString => false
  | String c rest =>
      (is_lower c || is_upper c || Ascii.eqb c "_" || Ascii.eqb c "$")
      && forall_chars
           (fun x => is_alnum x || Ascii.eqb x "_" || Ascii.eqb x "$") rest
  end.

(** [l.join(sep)] *)
Fixpoint join (sep : string) (l : list string) : string :=
  match l with
  | [] => ""
  | [x] => x
  | x :: rest => x ++ sep ++ join sep rest
  end.

(** The two captured variables of [jsonToTypeScript]: the array
    [interfaces] and the keys of the map [seen], latest first. *)
Record state : Type := mkState {
  interfaces : list string;
  seen : list string
}.

Definition push_interface (code : string) (st : state) : state :=
  mkState (interfaces st ++ [code])%list (seen st).

Definition seen_set (iName : string) (st : state) : state :=
  mkState (interfaces st) (iName :: seen st).

(** [value.map(v => getType(v, name))], for any [getType]. *)
Fixpoint map_types (getType : value -> string -> state -> string * state)
  (name : string) (items : list value) (st : state) : list string * state :=
  match items with
  | [] => ([], st)
  | v :: rest =>
      let '(t, st) := getType v name st in
      let '(ts, st) := map_types getType name rest st in
      (t :: ts, st)
  end.

(** The loop of [generateInterface] over [Object.entries(obj)], for
    any [getType]. *)
Fixpoint each_entry (getType : value -> string -> state -> string * state)
  (entries : list (string * value)) (code : string) (st : state)
  : string * state :=
  match entries with
  | [] => (code, st)
  | e :: rest =>
      let key := fst e in
      let value := snd e in
      let safeName :=
        if is_identifier key then key else dq key in
      let '(type, st) := getType value key st in
      let code := code ++ "  " ++ safeName ++ ": " ++ type ++ ";" ++ nl in
      each_entry getType rest code st
  end.

(** [generateInterface(obj, name)] on the entries of [obj], for any
    [getType]. *)
Definition generateInterface_with
  (getType : value -> string -> state -> string * state)
  (entries : list (string * value)) (name : string) (st : state) : state :=
  let code := "interface " ++ name ++ " {" ++ nl in
  let '(code, st) := each_entry getType entries code st in
  let code := code ++ "}" in
  push_interface code st.

(** The closure [getType]. *)
Fixpoint getType (value : value) (name : string) (st : state)
  : string * state :=
  match value with
  | JNull => ("null", st)
  | JArray items =>
      if Nat.eqb (length items) 0 then ("any[]", st)
      else
        let '(types, st) := map_types getType (strip_s name) items st in
        let itemTypes := new_Set types in
        if Nat.eqb (length itemTypes) 1
        then (hd "" itemTypes ++ "[]", st)
        else ("(" ++ join " | " itemTypes ++ ")[]", st)
  | JObject entries =>
      let iName := capitalize name in
      if negb (mem iName (seen st)) then
        let st := seen_set iName st in
        let st := generateInterface_with getType entries iName st in
        (iName, st)
      else (iName, st)
  | JBool _ => ("boolean", st)
  | JNumber _ => ("number", st)
  | JString _ => ("string", st)
  end.

(** The closure [generateInterface]. *)
Definition generateInterface := generateInterface_with getType.

(** [Object.entries(x)] of an array or a plain object. *)
Definition Object_entries (x : value) : list (string * value) :=
  match x with
  | JObject entries => entries
  | JArray items =>
      combine (map nat_to_string (seq 0 (length items))) items
  | _ => []
  end.

(** [typeof data] as text, at the last [return]. *)
Definition typeof_text (data : value) : string :=
  match data with
  | JBool _ => "boolean"
  | JNumber _ => "number"
  | JString _ => "string"
  | _ => "object"
  end.

Definition initial : state := mkState [] [].

Definition is_object_or_array (x : value) : bool :=
  match x with JObject _ | JArray _ => true | _ => false end.

Definition jsonToTypeScript (data : value) (interfaceName : string) : string :=
  match data with
  | JArray items =>
      match items with
      | first :: _ =>
          if is_object_or_array first then
            let st := generateInterface (Object_entries first) interfaceName
                                        initial in
            join (nl ++ nl) (rev (interfaces st))
            ++ nl ++ nl ++ "type " ++ interfaceName ++ "List = "
            ++ interfaceName ++ "[];"
          else
            "type " ++ interfaceName ++ " = "
            ++ fst (getType data interfaceName initial) ++ ";"
      | [] =>
          "type " ++ interfaceName ++ " = "
          ++ fst (getType data interfaceName initial) ++ ";"
      end
  | JObject entries =>
      let st := generateInterface entries interfaceName initial in
      join (nl ++ nl) (rev (interfaces st))
  | _ => "type " ++ interfaceName ++ " = " ++ typeof_text data ++ ";"
  end.

(** [code] is an interface block named [name]. *)
Definition block_for (name code : string) : Prop :=
  exists body, code = "interface " ++ name ++ " {" ++ nl ++ body ++ "}".

(** From [st] to [st'] the blocks [blocks] were appended, they are the
    blocks of the names [names], and these names are what [seen]
    gained. *)
Definition extends (st st' : state) (names blocks : list string) : Prop :=
  interfaces st' = (interfaces st ++ blocks)%list /\
  (exists new, seen st' = (new ++ seen st)%list /\ Permutation names new) /\
  Forall2 block_for names blocks.

Lemma extends_refl st : extends st st [] [].
Proof.
  repeat split.
  - now rewrite app_nil_r.
  - exists []. split; [reflexivity | constructor].
  - constructor.
Qed.

Lemma extends_trans st1 st2 st3 n1 b1 n2 b2 :
  extends st1 st2 n1 b1 -> extends st2 st3 n2 b2 ->
  extends st1 st3 (n1 ++ n2)%list (b1 ++ b2)%list.
Proof.
  intros (Hi1 & (new1 & Hs1 & Hp1) & Hb1) (Hi2 & (new2 & Hs2 & Hp2) & Hb2).
  repeat split.
  - now rewrite Hi2, Hi1, app_assoc.
  - exists (new2 ++ new1)%list. split.
    + now rewrite Hs2, Hs1, app_assoc.
    + rewrite (Permutation_app_comm new2 new1).
      now apply Permutation_app.
  - now apply Forall2_app.
Qed.

(** What one call of [getType] on [v] does to the state. *)
Definition grows (v : value) : Prop :=
  forall name st, NoDup (seen st) ->
  exists names blocks,
    extends st (snd (getType v name st)) names blocks /\
    NoDup (seen (snd (getType v name st))).

Lemma map_types_grows name items :
  Forall grows items ->
  forall st, NoDup (seen st) ->
  exists names blocks,
    extends st (snd (map_types getType name items st)) names blocks /\
    NoDup (seen (snd (map_types getType name items st))).
Proof.
  induction 1 as [| v items Hv _ IH]; intros st Hst; cbn [map_types].
  - exists [], []. split; [apply extends_refl | assumption].
  - destruct (Hv name st Hst) as (n1 & b1 & He1 & Hd1).
    destruct (getType v name st) as [t st1]. cbn [snd] in *.
    destruct (IH st1 Hd1) as (n2 & b2 & He2 & Hd2).
    destruct (map_types getType name items st1) as [ts st2]. cbn [snd] in *.
    exists (n1 ++ n2)%list, (b1 ++ b2)%list.
    split; [eapply extends_trans; eassumption | assumption].
Qed.

Lemma each_entry_grows entries :
  Forall (fun e => grows (snd e)) entries ->
  forall code st, NoDup (seen st) ->
  exists body names blocks,
    fst (each_entry getType entries code st) = code ++ body /\
    extends st (snd (each_entry getType entries code st)) names blocks /\
    NoDup (seen (snd (each_entry getType entries code st))).
Proof.
  induction 1 as [| e entries He _ IH]; intros code st Hst; cbn [each_entry].
  - exists "", [], []. cbn [fst snd]. rewrite append_nil_r.
    split; [reflexivity | split; [apply extends_refl | assumption]].
  - destruct (He (fst e) st Hst) as (n1 & b1 & He1 & Hd1).
    destruct (getType (snd e) (fst e) st) as [t st1]. cbn [snd] in He1, Hd1.
    match goal with
    | |- context [each_entry getType entries ?c st1] =>
        destruct (IH c st1 Hd1) as (body & n2 & b2 & Hc & He2 & Hd2)
    end.
    eexists _, (n1 ++ n2)%list, (b1 ++ b2)%list.
    split; [| split; [eapply extends_trans; eassumption | assumption]].
    rewrite Hc, !append_assoc. reflexivity.
Qed.

(** [generateInterface] appends the blocks of the interfaces met while
    it runs, and after them its own block. *)
Lemma generateInterface_grows entries :
  Forall (fun e => grows (snd e)) entries ->
  forall name st, NoDup (seen st) ->
  exists names nested code,
    interfaces (generateInterface entries name st) =
      (interfaces st ++ nested ++ [code])%list /\
    block_for name code /\
    (exists new, seen (generateInterface entries name st) = (new ++ seen st)%list
                 /\ Permutation names new) /\
    Forall2 block_for names nested /\
    NoDup (seen (generateInterface entries name st)).
Proof.
  intros Hentries name st Hst.
  unfold generateInterface, generateInterface_with.
  destruct (each_entry_grows entries Hentries
              ("interface " ++ name ++ " {" ++ nl) st Hst)
    as (body & names & nested & Hc & (Hi & Hs & Hb) & Hd).
  destruct (each_entry getType entries _ st) as [code st1].
  cbn [fst snd] in *. subst code.
  exists names, nested, ((("interface " ++ name ++ " {" ++ nl) ++ body) ++ "}").
  unfold push_interface. cbn [interfaces seen].
  repeat split; try assumption.
  - now rewrite Hi, app_assoc.
  - exists body. now rewrite !append_assoc.
Qed.

Lemma getType_grows v : grows v.
Proof.
  induction v as [| b | n | s | items IH | entries IH] using value_ind;
    intros name st Hst;
    try (exists [], []; split; [apply extends_refl | assumption]).
  - cbn [getType]. destruct (Nat.eqb (length items) 0).
    + exists [], []. split; [apply extends_refl | assumption].
    + destruct (map_types_grows (strip_s name) items IH st Hst)
        as (names & blocks & He & Hd).
      destruct (map_types getType (strip_s name) items st) as [types st1].
      cbn [snd] in *.
      exists names, blocks.
      destruct (Nat.eqb (length (new_Set types)) 1); cbn [snd]; auto.
  - cbn [getType]. destruct (mem (capitalize name) (seen st)) eqn:Eseen;
      cbn [negb].
    + exists [], []. split; [apply extends_refl | assumption].
    + assert (Hst1 : NoDup (seen (seen_set (capitalize name) st))).
      { cbn [seen_set seen]. constructor; [| assumption].
        intro Hin. apply mem_In in Hin. congruence. }
      destruct (generateInterface_grows entries IH (capitalize name) _ Hst1)
        as (names & nested & code & Hi & Hblock & (new & Hs & Hp) & Hb & Hd).
      fold generateInterface. cbn [snd].
      exists (names ++ [capitalize name])%list, (nested ++ [code])%list.
      split; [| assumption]. repeat split.
      * rewrite Hi. reflexivity.
      * exists (new ++ [capitalize name])%list. split.
        -- rewrite Hs. cbn [seen_set seen]. now rewrite <- app_assoc.
        -- now apply Permutation_app_tail.
      * apply Forall2_app; [assumption | repeat constructor; assumption].
Qed.

Lemma NoDup_app_disjoint {A} (l l' : list A) :
  NoDup (l ++ l')%list -> forall a, In a l -> ~ In a l'.
Proof.
  induction l as [| x l IH]; simpl; [tauto|].
  intros H a [-> | Hin] Hin'.
  - inversion H as [| ? ? Hx _]; subst. apply Hx, in_or_app. now right.
  - inversion H; subst. eapply IH; eassumption.
Qed.

(** The names of the interfaces in the order in which the traversal
    first meets them: the reading of "append on discovery" in the
    specification.  [found] lists the names met so far. *)
Fixpoint discover (v : value) (name : string) (found : list string)
  : list string :=
  match v with
  | JArray items =>
      fold_left (fun found item => discover item (strip_s name) found)
                items found
  | JObject entries =>
      let iName := capitalize name in
      if mem iName found then found
      else
        fold_left (fun found e => discover (snd e) (fst e) found)
                  entries (found ++ [iName])%list
  | _ => found
  end.

Definition discovery_order (entries : list (string * value))
  (interfaceName : string) : list string :=
  fold_left (fun found e => discover (snd e) (fst e) found)
            entries [interfaceName].

(** *** The output, read off the tree

    A second description of the output, without the two captured
    variables: the type text of a value, the block of an Object, and
    the list of the Objects for which an interface is generated, in the
    order of the output. *)

(** The type text of [v] under the name [name]. *)
Fixpoint type_of (v : value) (name : string) : string :=
  match v with
  | JNull => "null"
  | JBool _ => "boolean"
  | JNumber _ => "number"
  | JString _ => "string"
  | JObject _ => capitalize name
  | JArray items =>
      match items with
      | [] => "any[]"
      | _ :: _ =>
          let itemTypes :=
            new_Set (map (fun x => type_of x (strip_s name)) items) in
          if Nat.eqb (length itemTypes) 1 then hd "" itemTypes ++ "[]"
          else "(" ++ join " | " itemTypes ++ ")[]"
      end
  end.

(** The line of one member. *)
Definition member_line (e : string * value) : string :=
  "  " ++ (if is_identifier (fst e) then fst e else dq (fst e)) ++ ": "
  ++ type_of (snd e) (fst e) ++ ";" ++ nl.

(** An interface to generate: its name and the members of the Object
    it describes. *)
Definition shape : Type := string * list (string * value).

(** The block of an interface. *)
Definition block (g : shape) : string :=
  "interface " ++ fst g ++ " {" ++ nl
  ++ concat_strings (map member_line (snd g)) ++ "}".

(** The interfaces that the elements of [l] bring, the elements taken
    from left to right: what a later element brings stands before what
    an earlier element brings.  [known] holds the names registered so
    far, latest first. *)
Fixpoint generated_each {A : Type}
  (gen : A -> list string -> list shape * list string)
  (l : list A) (known : list string) : list shape * list string :=
  match l with
  | [] => ([], known)
  | x :: l' =>
      let '(first, known) := gen x known in
      let '(later, known) := generated_each gen l' known in
      ((later ++ first)%list, known)
  end.

(** The interfaces that [v], met under the name [name], brings: an
    Object whose generated name is registered brings nothing; any
    other Object registers its name and brings its own interface,
    followed by those that its members bring. *)
Fixpoint generated (v : value) (name : string) (known : list string)
  : list shape * list string :=
  match v with
  | JArray items =>
      generated_each (fun x => generated x (strip_s name)) items known
  | JObject entries =>
      let iName := capitalize name in
      if mem iName known then ([], known)
      else
        let '(inner, known) :=
          generated_each (fun e => generated (snd e) (fst e)) entries
                         (iName :: known) in
        ((iName, entries) :: inner, known)
  | _ => ([], known)
  end.

(** The interfaces that the members of the root bring; the name of the
    root is not registered. *)
Definition members (entries : list (string * value)) : list shape :=
  fst (generated_each (fun e => generated (snd e) (fst e)) entries []).

(** [getType] on [v] returns the type text of [v] and appends the
    blocks of the interfaces that [v] brings, last one first. *)
Definition generates (v : value) : Prop :=
  forall name st,
    getType v name st =
    (type_of v name,
     mkState (interfaces st
              ++ rev (map block (fst (generated v name (seen st)))))%list
             (snd (generated v name (seen st)))).

Lemma state_same st :
  mkState (interfaces st ++ rev (map block []))%list (seen st) = st.
Proof. destruct st. cbn [map rev interfaces seen]. now rewrite app_nil_r. Qed.

Lemma map_types_generated name items :
  Forall generates items ->
  forall st,
    map_types getType name items st =
    (map (fun x => type_of x name) items,
     mkState
       (interfaces st
        ++ rev (map block
                  (fst (generated_each (fun x => generated x name) items
                                       (seen st)))))%list
       (snd (generated_each (fun x => generated x name) items (seen st)))).
Proof.
  induction 1 as [| v items Hv _ IH]; intro st.
  - cbn [map_types generated_each map fst snd]. now rewrite state_same.
  - cbn [map_types generated_each map]. rewrite (Hv name st).
    destruct (generated v name (seen st)) as [g1 known1].
    cbn [fst snd]. rewrite IH. cbn [interfaces seen].
    destruct (generated_each _ items known1) as [g2 known2].
    cbn [fst snd]. now rewrite map_app, rev_app_distr, app_assoc.
Qed.

Lemma each_entry_generated entries :
  Forall (fun e => generates (snd e)) entries ->
  forall code st,
    each_entry getType entries code st =
    (code ++ concat_strings (map member_line entries),
     mkState
       (interfaces st
        ++ rev (map block
                  (fst (generated_each (fun e => generated (snd e) (fst e))
                                       entries (seen st)))))%list
       (snd (generated_each (fun e => generated (snd e) (fst e)) entries
                            (seen st)))).
Proof.
  induction 1 as [| e entries He _ IH]; intros code st.
  - cbn [each_entry generated_each map concat_strings fold_right fst snd].
    now rewrite state_same, append_nil_r.
  - cbn [each_entry generated_each map]. rewrite (He (fst e) st).
    destruct (generated (snd e) (fst e) (seen st)) as [g1 known1].
    cbn [fst snd]. rewrite IH. cbn [interfaces seen].
    destruct (generated_each _ entries known1) as [g2 known2].
    cbn [fst snd concat_strings fold_right].
    fold (concat_strings (map member_line entries)).
    rewrite map_app, rev_app_distr, app_assoc. f_equal.
    unfold member_line. now rewrite !append_assoc.
Qed.

Lemma generateInterface_generated entries :
  Forall (fun e => generates (snd e)) entries ->
  forall name st,
    generateInterface entries name st =
    mkState
      (interfaces st
       ++ rev (map block
                 ((name, entries)
                  :: fst (generated_each (fun e => generated (snd e) (fst e))
                                         entries (seen st)))))%list
      (snd (generated_each (fun e => generated (snd e) (fst e)) entries
                           (seen st))).
Proof.
  intros Hentries name st.
  unfold generateInterface, generateInterface_with.
  rewrite (each_entry_generated entries Hentries).
  unfold push_interface. cbn [interfaces seen map rev].
  rewrite <- app_assoc. f_equal. f_equal. f_equal.
  unfold block. cbn [fst snd]. now rewrite !append_assoc.
Qed.

Lemma getType_generated v : generates v.
Proof.
  induction v as [| b | n | s | items IH | entries IH] using value_ind;
    intros name st;
    try (cbn [getType type_of generated fst snd]; now rewrite state_same).
  - cbn [getType type_of generated].
    destruct items as [| x items].
    + cbn [length Nat.eqb generated_each fst snd]. now rewrite state_same.
    + cbn [length Nat.eqb].
      rewrite (map_types_generated (strip_s name) (x :: items) IH).
      destruct (Nat.eqb (length (new_Set _)) 1); reflexivity.
  - cbn [getType type_of generated].
    destruct (mem (capitalize name) (seen st)); cbn [negb fst snd].
    + now rewrite state_same.
    + fold generateInterface.
      rewrite (generateInterface_generated entries IH).
      cbn [seen_set interfaces seen].
      destruct (generated_each _ entries (capitalize name :: seen st))
        as [inner known].
      reflexivity.
Qed.

(** The names that [v] brings are new and pairwise distinct: the
    registered names stay pairwise distinct, and they grow by the names
    of the interfaces brought. *)
Definition brings_new {A : Type}
  (gen : A -> list string -> list shape * list string) (x : A) : Prop :=
  forall known, NoDup known ->
    NoDup (snd (gen x known)) /\
    Permutation (snd (gen x known)) (map fst (fst (gen x known)) ++ known)%list.

Lemma generated_each_new {A : Type}
  (gen : A -> list string -> list shape * list string) (l : list A) :
  Forall (brings_new gen) l -> brings_new (generated_each gen) l.
Proof.
  induction 1 as [| x l Hx _ IH]; intros known Hknown.
  - cbn [generated_each fst snd map app]. split; [assumption | reflexivity].
  - cbn [generated_each]. destruct (Hx known Hknown) as [Hd1 Hp1].
    destruct (gen x known) as [g1 known1]. cbn [fst snd] in *.
    destruct (IH known1 Hd1) as [Hd2 Hp2].
    destruct (generated_each gen l known1) as [g2 known2]. cbn [fst snd] in *.
    split; [assumption|].
    rewrite Hp2, map_app, <- app_assoc.
    now apply Permutation_app_head.
Qed.

Lemma generated_new v : forall name, brings_new (fun x => generated x name) v.
Proof.
  induction v as [| b | n | s | items IH | entries IH] using value_ind;
    intros name known Hknown;
    try (cbn [generated fst snd map app]; split; [assumption | reflexivity]).
  - cbn [generated].
    apply (generated_each_new (fun x => generated x (strip_s name)));
      [| assumption].
    eapply Forall_impl; [| exact IH]. intros x Hx. apply Hx.
  - cbn [generated].
    destruct (mem (capitalize name) known) eqn:Eknown.
    + cbn [fst snd map app]. split; [assumption | reflexivity].
    + assert (Hd : NoDup (capitalize name :: known)).
      { constructor; [| assumption].
        intro Hin. apply mem_In in Hin. congruence. }
      destruct (generated_each_new (fun e => generated (snd e) (fst e)) entries)
        with (known := (capitalize name :: known)) as [Hd2 Hp2];
        [| assumption |].
      { eapply Forall_impl; [| exact IH]. intros e He. apply He. }
      destruct (generated_each _ entries (capitalize name :: known))
        as [inner known2].
      cbn [fst snd map] in *. split; [assumption|].
      rewrite Hp2. cbn [app]. symmetry. apply Permutation_middle.
Qed.

Lemma members_distinct entries : NoDup (map fst (members entries)).
Proof.
  unfold members.
  destruct (generated_each_new (fun e => generated (snd e) (fst e)) entries)
    with (known := @nil string) as [Hd Hp]; [| constructor |].
  { apply Forall_forall. intros e _. apply generated_new. }
  rewrite app_nil_r in Hp.
  apply (Permutation_NoDup Hp Hd).
Qed.

(** C4, amended.  For an Object input the output is the block of the
    root followed by the blocks of the interfaces that its members
    bring, joined by an empty line; for a List input whose first
    element is an Object it is the same text followed by the alias of
    the list type.  Every member Object whose generated name is not
    yet registered brings one block, its own, followed by the blocks
    that its members bring; the blocks that a later member brings
    stand before those of an earlier member, as every block is
    appended when its body is complete and the list is reversed before
    joining.  The names of the member interfaces are pairwise
    distinct.  A member Object whose generated name is already
    registered leaves the two captured variables as they are and
    yields that name: the first shape wins and nothing is reported. *)
Theorem jsonToTypeScript_blocks_on_completion
  (entries : list (string * value)) (rest : list value)
  (interfaceName : string) :
  jsonToTypeScript (JObject entries) interfaceName =
    join (nl ++ nl) (map block ((interfaceName, entries) :: members entries))
  /\
  jsonToTypeScript (JArray (JObject entries :: rest)) interfaceName =
    join (nl ++ nl) (map block ((interfaceName, entries) :: members entries))
    ++ nl ++ nl ++ "type " ++ interfaceName ++ "List = "
    ++ interfaceName ++ "[];"
  /\
  NoDup (map fst (members entries))
  /\
  (forall other name st,
     mem (capitalize name) (seen st) = true ->
     getType (JObject other) name st = (capitalize name, st)).
Proof.
  assert (Hall : Forall (fun e => generates (snd e)) entries).
  { apply Forall_forall. intros e _. apply getType_generated. }
  assert (Hout : rev (interfaces (generateInterface entries interfaceName
                                                    initial)) =
                 map block ((interfaceName, entries) :: members entries)).
  { rewrite (generateInterface_generated entries Hall).
    cbn [interfaces initial seen app]. now rewrite rev_involutive. }
  split; [| split; [| split]].
  - cbn [jsonToTypeScript]. now rewrite Hout.
  - cbn [jsonToTypeScript is_object_or_array Object_entries].
    now rewrite Hout.
  - apply members_distinct.
  - intros other name st Hseen. cbn [getType]. now rewrite Hseen.
Qed.

(** C9. For a top-level List whose first element is an Object, the
    output is the output for that Object followed by the alias of the
    list type; the elements after the first do not occur in it, so two
    such lists with the same first element have the same output. *)
Theorem jsonToTypeScript_first_element_only
  (entries : list (string * value)) (rest rest' : list value)
  (interfaceName : string) :
  jsonToTypeScript (JArray (JObject entries :: rest)) interfaceName =
    jsonToTypeScript (JObject entries) interfaceName
    ++ nl ++ nl ++ "type " ++ interfaceName ++ "List = "
    ++ interfaceName ++ "[];" /\
  jsonToTypeScript (JArray (JObject entries :: rest)) interfaceName =
    jsonToTypeScript (JArray (JObject entries :: rest')) interfaceName.
Proof. split; reflexivity. Qed.

End WithToUpperCase.

(** [toUpperCase] of one code unit below 256 as ECMAScript defines it,
    for the examples: a small letter of the ASCII or of the Latin-1
    range gets its capital, 32 code units below it; the sharp s (223)
    gets the two letters SS; the division sign (247) and every other
    code unit stay.  The capitals of the micro sign (181) and of the
    y with diaeresis (255) are the code units 924 and 376, which a
    [string] cannot hold: those two are outside this function, and
    nothing below applies it to them. *)
Definition toUpperCase_latin1 (c : ascii) : string :=
  let n := nat_of_ascii c in
  if Nat.eqb n 223 then "SS"
  else if (Nat.leb 97 n && Nat.leb n 122)
          || (Nat.leb 224 n && Nat.leb n 254 && negb (Nat.eqb n 247))
  then String (ascii_of_nat (n - 32)) ""
  else String c "".

(** [{"a": {"x": 1}}] and the two blocks that it yields. *)
Definition nested_example : list (string * value) :=
  [("a", JObject [("x", JNumber num_one)])].

Definition root_block : string :=
  "interface Root {" ++ nl ++ "  a: A;" ++ nl ++ "}".

Definition a_block : string :=
  "interface A {" ++ nl ++ "  x: number;" ++ nl ++ "}".

(** C4 as stated fails at [{"a": {"x": 1}}]: [Root] is discovered
    before [A], and the output lists the block of [Root] before that
    of [A], which is the order of discovery and not its reverse. *)
Lemma jsonToTypeScript_not_reverse_discovery :
  discovery_order toUpperCase_latin1 nested_example "Root" = ["Root"; "A"] /\
  block_for "Root" root_block /\ block_for "A" a_block /\
  jsonToTypeScript toUpperCase_latin1 (JObject nested_example) "Root"
    = join (nl ++ nl) [root_block; a_block] /\
  jsonToTypeScript toUpperCase_latin1 (JObject nested_example) "Root"
    <> join (nl ++ nl) (rev [root_block; a_block]).
Proof.
  split; [reflexivity|].
  split; [exists ("  a: A;" ++ nl); reflexivity|].
  split; [exists ("  x: number;" ++ nl); reflexivity|].
  split; [reflexivity | discriminate].
Qed.

End TypeScript.

(** ** Token classifier ([syntaxHighlight]) *)

Module Highlight.

Definition backslash : ascii := "\"%char.

(** A word character: a letter, a digit or the underscore. *)
Definition is_word (c : ascii) : bool := is_alnum c || Ascii.eqb c "_".

Definition is_word_opt (c : option ascii) : bool :=
  match c with Some x => is_word x | None => false end.

Definition first_char (s : string) : option ascii :=
  match s with String c _ => Some c | EmptyString => None end.

Fixpoint last_char (s : string) : option ascii :=
  match s with
  | EmptyString => None
  | String c EmptyString => Some c
  | String _ s' => last_char s'
  end.

Fixpoint take_while (f : ascii -> bool) (s : string) : string :=
  match s with
  | String c s' => if f c then String c (take_while f s') else ""
  | EmptyString => ""
  end.

Fixpoint drop_while (f : ascii -> bool) (s : string) : string :=
  match s with
  | String c s' => if f c then drop_while f s' else s
  | EmptyString => s
  end.

Definition cons_result (c : ascii) (r : option (string * string))
  : option (string * string) :=
  match r with
  | Some (m, rest) => Some (String c m, rest)
  | None => None
  end.

(** The body of a quoted string and its closing quote at the start of
    [s]: any number of items, each a backslash, [u] and four letters or
    digits, or a backslash and a code unit other than [u], or a code
    unit other than backslash and double quote; then a double quote.
    The result is the text matched, closing quote included, and the
    text after it.  A code unit starts at most one of the three kinds
    of item, so the repetition has a single way through the text. *)
Fixpoint string_body (s : string) : option (string * string) :=
  match s with
  | EmptyString => None
  | String c rest =>
      if Ascii.eqb c quot then Some (String quot "", rest)
      else if Ascii.eqb c backslash then
        match rest with
        | EmptyString => None
        | String e rest1 =>
            if Ascii.eqb e "u" then
              match rest1 with
              | String h1 (String h2 (String h3 (String h4 rest2))) =>
                  if is_alnum h1 && is_alnum h2 && is_alnum h3 && is_alnum h4
                  then
                    cons_result c (cons_result e (cons_result h1
                      (cons_result h2 (cons_result h3 (cons_result h4
                        (string_body rest2))))))
                  else None
              | _ => None
              end
            else cons_result c (cons_result e (string_body rest1))
        end
      else cons_result c (string_body rest)
  end.

(** Optional white space and a colon at the start of [s]. *)
Definition colon_group (s : string) : option (string * string) :=
  match drop_while is_space s with
  | String c rest =>
      if Ascii.eqb c ":" then Some (take_while is_space s ++ ":", rest)
      else None
  | EmptyString => None
  end.

(** A quoted string at the start of [s]. *)
Definition match_quoted (s : string) : option (string * string) :=
  match s with
  | String c rest =>
      if Ascii.eqb c quot then cons_result c (string_body rest) else None
  | EmptyString => None
  end.

(** The first alternative: a quoted string, then the optional group of
    white space and colon. *)
Definition match_string (s : string) : option (string * string) :=
  match match_quoted s with
  | Some (q, after) =>
      match colon_group after with
      | Some (group, after') => Some (q ++ group, after')
      | None => Some (q, after)
      end
  | None => None
  end.

(** [s] begins with the word [w] and no word character follows it. *)
Definition word_here (w s : string) : option (string * string) :=
  match strip_prefix w s with
  | Some rest => if is_word_opt (first_char rest) then None else Some (w, rest)
  | None => None
  end.

(** The second alternative: one of the words [true], [false], [null]
    between two word boundaries; [prev] is the code unit before the
    position, if any. *)
Definition match_literal (prev : option ascii) (s : string)
  : option (string * string) :=
  if is_word_opt prev then None
  else
    match word_here "true" s with
    | Some r => Some r
    | None =>
        match word_here "false" s with
        | Some r => Some r
        | None => word_here "null" s
        end
    end.

(** One or more digits. *)
Definition digits1 (s : string) : option (string * string) :=
  match take_while is_digit s with
  | EmptyString => None
  | ds => Some (ds, drop_while is_digit s)
  end.

(** The optional group of a dot and any number of digits. *)
Definition fraction_opt (s : string) : string * string :=
  match s with
  | String c rest =>
      if Ascii.eqb c "." then
        (String c (take_while is_digit rest), drop_while is_digit rest)
      else ("", s)
  | EmptyString => ("", s)
  end.

(** The optional group of [e] or [E], an optional sign and one or more
    digits. *)
Definition exponent_opt (s : string) : string * string :=
  match s with
  | String c rest =>
      if Ascii.eqb c "e" || Ascii.eqb c "E" then
        match rest with
        | String sg rest1 =>
            if Ascii.eqb sg "+" || Ascii.eqb sg "-" then
              match digits1 rest1 with
              | Some (ds, after) => (String c (String sg ds), after)
              | None => ("", s)
              end
            else
              match digits1 rest with
              | Some (ds, after) => (String c ds, after)
              | None => ("", s)
              end
        | EmptyString => ("", s)
        end
      else ("", s)
  | EmptyString => ("", s)
  end.

(** The part of the third alternative after the sign. *)
Definition unsigned_number (s : string) : option (string * string) :=
  match digits1 s with
  | Some (ds, after) =>
      let '(frac, after) := fraction_opt after in
      let '(expo, after) := exponent_opt after in
      Some (ds ++ frac ++ expo, after)
  | None => None
  end.

(** The third alternative: an optional minus, digits, the optional
    fraction and the optional exponent. *)
Definition match_number (s : string) : option (string * string) :=
  match s with
  | String c rest =>
      if Ascii.eqb c "-" then cons_result c (unsigned_number rest)
      else unsigned_number s
  | EmptyString => None
  end.

(** One attempt of the whole pattern at a position: the alternatives
    in their order. *)
Definition match_at (prev : option ascii) (s : string)
  : option (string * string) :=
  match match_string s with
  | Some r => Some r
  | None =>
      match match_literal prev s with
      | Some r => Some r
      | None => match_number s
      end
  end.

Definition starts_with_quote (m : string) : bool :=
  match m with String c _ => Ascii.eqb c quot | EmptyString => false end.

Definition ends_with_colon (m : string) : bool :=
  match last_char m with Some c => Ascii.eqb c ":" | None => false end.

(** The class that the callback chooses for a match. *)
Definition class_of (m : string) : string :=
  let cls := "json-number" in
  if starts_with_quote m then
    if ends_with_colon m then "json-key" else "json-string"
  else if is_substring "true" m || is_substring "false" m then "json-boolean"
  else if is_substring "null" m then "json-null"
  else cls.

(** The callback of [replace]. *)
Definition wrap (m : string) : string :=
  "<span class=" ++ dq (class_of m) ++ ">" ++ m ++ "</span>".

(** The input cut at the matches of the global pattern. *)
Inductive piece : Type :=
| Plain (c : ascii)
| Matched (m : string).

(** The scan of [replace] with the flag [g]: at each position either a
    match, after which the scan resumes behind it, or one code unit
    that is copied.  Every match is at least one code unit long, so
    one unit of [fuel] per code unit of [s] suffices. *)
Fixpoint pieces (fuel : nat) (prev : option ascii) (s : string) : list piece :=
  match fuel with
  | O => []
  | S fuel =>
      match s with
      | EmptyString => []
      | String c rest =>
          match match_at prev s with
          | Some (m, after) => Matched m :: pieces fuel (last_char m) after
          | None => Plain c :: pieces fuel (Some c) rest
          end
      end
  end.

Definition render (p : piece) : string :=
  match p with
  | Plain c => String c ""
  | Matched m => wrap m
  end.

(** Lines 164 to 178: escaping, then the replacement. *)
Definition highlight (json : string) : string :=
  let json := escape_text json in
  concat_strings (map render (pieces (String.length json) None json)).

Inductive input : Type :=
| Text (json : string)
| Data (json : value).

Section WithStringify.

(** [JSON.stringify(json, null, 2)] *)
Variable JSON_stringify : value -> string.

Definition syntaxHighlight (json : input) : string :=
  let json :=
    match json with
    | Text s => s
    | Data v => JSON_stringify v
    end in
  highlight json.

End WithStringify.

(** *** The tokens of the pattern, as sets of texts

    The three alternatives of the pattern, read as sets of texts and
    not as a way of scanning. *)

(** One item of the body of a quoted string: a backslash, [u] and four
    letters or digits; a backslash and a code unit other than [u]; a
    code unit other than the backslash and the double quote. *)
Inductive body_item : string -> Prop :=
| item_unicode h1 h2 h3 h4 :
    is_alnum h1 = true -> is_alnum h2 = true ->
    is_alnum h3 = true -> is_alnum h4 = true ->
    body_item (String backslash (String "u" (String h1 (String h2
                (String h3 (String h4 ""))))))
| item_escape c :
    c <> "u"%char -> body_item (String backslash (String c ""))
| item_plain c :
    c <> backslash -> c <> quot -> body_item (String c "").

Inductive body : string -> Prop :=
| body_nil : body ""
| body_cons i rest : body_item i -> body rest -> body (i ++ rest).

(** A quoted string: a body between two double quotes. *)
Definition quoted (q : string) : Prop := exists b, body b /\ q = dq b.

(** One or more digits. *)
Definition digits (ds : string) : Prop :=
  ds <> "" /\ forall_chars is_digit ds = true.

(** Nothing, or a dot and any number of digits. *)
Definition fraction (f : string) : Prop :=
  f = "" \/ exists ds, forall_chars is_digit ds = true /\ f = String "." ds.

(** Nothing, or [e] or [E], an optional sign and one or more digits. *)
Definition exponent (e : string) : Prop :=
  e = "" \/
  exists c sign ds,
    (c = "e" \/ c = "E")%char /\ (sign = "" \/ sign = "+" \/ sign = "-") /\
    digits ds /\ e = String c (sign ++ ds).

(** A numeric text: an optional minus, digits, a fraction and an
    exponent. *)
Definition number (m : string) : Prop :=
  exists sign ds f e,
    (sign = "" \/ sign = "-") /\ digits ds /\ fraction f /\ exponent e /\
    m = sign ++ ds ++ f ++ e.

(** [m] is a token of the class [cls] where the code unit [prev]
    stands before it and the text [after] behind it: a quoted string
    with optional white space and a colon behind it, these included,
    is a key; a quoted string is a string; the words [true] and
    [false] are booleans and [null] is a null where no word character
    stands before or behind them; a numeric text is a number. *)
Inductive token_at (prev : option ascii) : string -> string -> string -> Prop :=
| at_key q ws after :
    quoted q -> forall_chars is_space ws = true ->
    token_at prev "json-key" (q ++ ws ++ ":") after
| at_string q after :
    quoted q -> token_at prev "json-string" q after
| at_boolean m after :
    m = "true" \/ m = "false" ->
    is_word_opt prev = false -> is_word_opt (first_char after) = false ->
    token_at prev "json-boolean" m after
| at_null after :
    is_word_opt prev = false -> is_word_opt (first_char after) = false ->
    token_at prev "json-null" "null" after
| at_number m after :
    number m -> token_at prev "json-number" m after.

(** The match of the pattern at the start of [s]: the longest token
    there.  (A quoted string that white space and a colon follow is
    thereby matched with them, as a key, and not alone, as a
    string.) *)
Definition the_match (prev : option ascii) (s cls m after : string) : Prop :=
  s = m ++ after /\ token_at prev cls m after /\
  forall cls' m' after',
    s = m' ++ after' -> token_at prev cls' m' after' ->
    String.length m' <= String.length m.

(** [out] is the text [s] with its tokens tagged, from left to right:
    where the pattern has a match, the match is wrapped in a tag that
    names its class and the text behind the match is treated in the
    same way; where no token starts, one code unit is copied.  [prev]
    is the code unit before [s]. *)
Inductive tagged : option ascii -> string -> string -> Prop :=
| tagged_end prev : tagged prev "" ""
| tagged_match prev s cls m after out :
    the_match prev s cls m after ->
    tagged (last_char m) after out ->
    tagged prev s
           ("<span class=" ++ dq cls ++ ">" ++ m ++ "</span>" ++ out)
| tagged_copy prev c rest out :
    (forall cls m after,
       String c rest = m ++ after -> ~ token_at prev cls m after) ->
    tagged (Some c) rest out ->
    tagged prev (String c rest) (String c out).

(** *** What a match looks like *)

Lemma take_drop_while f s : take_while f s ++ drop_while f s = s.
Proof.
  induction s as [| c s IH]; simpl; [reflexivity|].
  destruct (f c); simpl; [now rewrite IH | reflexivity].
Qed.

Lemma take_while_all f s : forall_chars f (take_while f s) = true.
Proof.
  induction s as [| c s IH]; simpl; [reflexivity|].
  destruct (f c) eqn:E; simpl; [now rewrite E | reflexivity].
Qed.

Lemma forall_chars_app f s t :
  forall_chars f (s ++ t) = forall_chars f s && forall_chars f t.
Proof.
  induction s as [| c s IH]; simpl; [reflexivity|].
  now rewrite IH, andb_assoc.
Qed.

Lemma forall_chars_weaken (f g : ascii -> bool) s :
  (forall c, f c = true -> g c = true) ->
  forall_chars f s = true -> forall_chars g s = true.
Proof.
  intro H. induction s as [| c s IH]; simpl; [reflexivity|].
  intro E. apply andb_true_iff in E. destruct E as [E1 E2].
  now rewrite (H _ E1), IH.
Qed.

Lemma forall_chars_lacks f c s :
  forall_chars f s = true -> f c = false -> contains_char c s = false.
Proof.
  intros Hs Hc. induction s as [| x s IH]; simpl; [reflexivity|].
  simpl in Hs. apply andb_true_iff in Hs. destruct Hs as [Hx Hs].
  rewrite (IH Hs), orb_false_r.
  destruct (Ascii.eqb_spec x c) as [-> |]; [congruence | reflexivity].
Qed.

Lemma is_substring_first c p s :
  is_substring (String c p) s = true -> contains_char c s = true.
Proof.
  induction s as [| x s IH]; simpl; [discriminate|].
  destruct (Ascii.ascii_dec c x) as [-> | Hne].
  - intros _. now rewrite Ascii.eqb_refl.
  - simpl. intro H. rewrite (IH H). apply orb_true_r.
Qed.

Lemma strip_prefix_app w : forall s r, strip_prefix w s = Some r -> s = w ++ r.
Proof.
  induction w as [| a w IH]; intros s r; simpl.
  - now intros [= ->].
  - destruct s as [| b s]; [discriminate|].
    destruct (Ascii.eqb_spec a b) as [-> |]; [| discriminate].
    intro H. now rewrite (IH _ _ H).
Qed.

Lemma cons_result_some c r m after :
  cons_result c r = Some (m, after) ->
  exists m', r = Some (m', after) /\ m = String c m'.
Proof.
  destruct r as [[m' after'] |]; simpl; [| discriminate].
  intros [= <- <-]. eauto.
Qed.

Lemma last_char_app s t :
  t <> "" -> last_char (s ++ t) = last_char t.
Proof.
  intro Ht. induction s as [| c s IH]; simpl; [reflexivity|].
  rewrite <- IH. destruct (s ++ t) eqn:E; [| reflexivity].
  destruct s; simpl in E; [contradiction | discriminate].
Qed.

Lemma colon_group_sound s g after :
  colon_group s = Some (g, after) ->
  s = g ++ after /\
  exists ws, g = ws ++ ":" /\ forall_chars is_space ws = true.
Proof.
  unfold colon_group. destruct (drop_while is_space s) as [| c rest] eqn:E;
    [discriminate|].
  destruct (Ascii.eqb_spec c ":") as [-> |]; [| discriminate].
  intros [= <- <-]. split.
  - rewrite append_assoc. simpl. rewrite <- E. symmetry. apply take_drop_while.
  - eexists. split; [reflexivity | apply take_while_all].
Qed.

Lemma take_while_spaces ws after :
  forall_chars is_space ws = true ->
  take_while is_space (ws ++ String ":" after) = ws /\
  drop_while is_space (ws ++ String ":" after) = String ":" after.
Proof.
  induction ws as [| c ws IH]; simpl; [auto|].
  intro H. apply andb_true_iff in H. destruct H as [Hc Hws].
  rewrite Hc. destruct (IH Hws) as [-> ->]. auto.
Qed.

Lemma colon_group_complete ws after :
  forall_chars is_space ws = true ->
  colon_group (ws ++ ":" ++ after) = Some (ws ++ ":", after).
Proof.
  intro H. unfold colon_group.
  change (":" ++ after) with (String ":" after).
  destruct (take_while_spaces ws after H) as [-> ->]. reflexivity.
Qed.

(** The code units of a number token. *)
Definition is_number_char (c : ascii) : bool :=
  is_digit c || Ascii.eqb c "." || Ascii.eqb c "e" || Ascii.eqb c "E"
  || Ascii.eqb c "+" || Ascii.eqb c "-".

Lemma digit_number_char c : is_digit c = true -> is_number_char c = true.
Proof. unfold is_number_char. now intros ->. Qed.

Lemma number_class m :
  forall_chars is_number_char m = true ->
  (exists c m', m = String c m' /\ is_number_char c = true) ->
  class_of m = "json-number".
Proof.
  intros Hall (c & m' & -> & Hc). unfold class_of.
  assert (Hq : starts_with_quote (String c m') = false).
  { simpl. destruct (Ascii.eqb_spec c quot) as [-> |]; [discriminate | auto]. }
  rewrite Hq.
  assert (Hlack : forall x p, is_number_char x = false ->
            is_substring (String x p) (String c m') = false).
  { intros x p Hx. destruct (is_substring (String x p) (String c m')) eqn:E;
      [| reflexivity].
    apply is_substring_first in E.
    now rewrite (forall_chars_lacks _ _ _ Hall Hx) in E. }
  now rewrite !Hlack.
Qed.

Lemma length_app s t :
  String.length (s ++ t) = String.length s + String.length t.
Proof. induction s; simpl; congruence. Qed.

Lemma string_body_body n : forall s b r,
  String.length s <= n -> string_body s = Some (b, r) ->
  exists b0, body b0 /\ b = b0 ++ String quot "" /\ s = b ++ r.
Proof.
  induction n as [| n IH]; intros s b r Hlen.
  - destruct s; [discriminate | simpl in Hlen; lia].
  - destruct s as [| c rest]; [discriminate|].
    cbn [string_body]. simpl in Hlen.
    destruct (Ascii.eqb_spec c quot) as [-> | Hq].
    { intros [= <- <-]. exists "". split; [constructor | split; reflexivity]. }
    destruct (Ascii.eqb_spec c backslash) as [-> | Hb].
    + destruct rest as [| e rest1]; [discriminate|].
      destruct (Ascii.eqb_spec e "u") as [-> | Hu].
      * destruct rest1 as [| h1 [| h2 [| h3 [| h4 rest2]]]]; try discriminate.
        destruct (is_alnum h1) eqn:E1, (is_alnum h2) eqn:E2,
                 (is_alnum h3) eqn:E3, (is_alnum h4) eqn:E4;
          try discriminate.
        cbn [andb]. intro H.
        repeat (apply cons_result_some in H; destruct H as (? & H & ->)).
        apply IH in H; [| simpl in Hlen; lia].
        destruct H as (b0 & Hb0 & -> & ->).
        exists (String backslash (String "u" (String h1 (String h2
                  (String h3 (String h4 "")))))
                ++ b0).
        split; [constructor; [now constructor | assumption]|].
        split; reflexivity.
      * intro H.
        repeat (apply cons_result_some in H; destruct H as (? & H & ->)).
        apply IH in H; [| simpl in Hlen; lia].
        destruct H as (b0 & Hb0 & -> & ->).
        exists (String backslash (String e "") ++ b0).
        split; [constructor; [now constructor | assumption]|].
        split; reflexivity.
    + intro H.
      apply cons_result_some in H. destruct H as (? & H & ->).
      apply IH in H; [| lia]. destruct H as (b0 & Hb0 & -> & ->).
      exists (String c "" ++ b0).
      split; [constructor; [now constructor | assumption]|].
      split; reflexivity.
Qed.

Lemma match_quoted_quoted s q after :
  match_quoted s = Some (q, after) -> quoted q /\ s = q ++ after.
Proof.
  destruct s as [| c rest]; [discriminate|]. cbn [match_quoted].
  destruct (Ascii.eqb_spec c quot) as [-> |]; [| discriminate].
  intro H. apply cons_result_some in H. destruct H as (b & H & ->).
  apply (string_body_body _ _ _ _ (le_n _)) in H.
  destruct H as (b0 & Hb0 & -> & ->).
  split; [exists b0; split; [assumption | reflexivity] | reflexivity].
Qed.

Lemma string_body_complete b : body b ->
  forall rest,
    string_body (b ++ String quot rest) = Some (b ++ String quot "", rest).
Proof.
  induction 1 as [| i b Hi _ IH]; intro rest.
  - cbn [append string_body]. now rewrite Ascii.eqb_refl.
  - destruct Hi as [h1 h2 h3 h4 E1 E2 E3 E4 | c Hu | c Hb Hq].
    + cbn [append string_body].
      change (Ascii.eqb backslash quot) with false.
      change (Ascii.eqb backslash backslash) with true.
      change (Ascii.eqb "u" "u") with true. cbn iota.
      rewrite E1, E2, E3, E4. cbn [andb]. rewrite IH. reflexivity.
    + cbn [append string_body].
      change (Ascii.eqb backslash quot) with false.
      change (Ascii.eqb backslash backslash) with true. cbn iota.
      destruct (Ascii.eqb_spec c "u"); [contradiction|].
      rewrite IH. reflexivity.
    + cbn [append string_body].
      destruct (Ascii.eqb_spec c quot); [contradiction|].
      destruct (Ascii.eqb_spec c backslash); [contradiction|].
      rewrite IH. reflexivity.
Qed.

Lemma match_quoted_complete q after :
  quoted q -> match_quoted (q ++ after) = Some (q, after).
Proof.
  intros (b & Hb & ->). unfold dq. cbn [append match_quoted].
  rewrite Ascii.eqb_refl, append_assoc. cbn [append].
  now rewrite (string_body_complete b Hb).
Qed.

(** *** What the scan finds *)

Lemma digits1_digits s ds after :
  digits1 s = Some (ds, after) -> digits ds /\ s = ds ++ after.
Proof.
  unfold digits1. destruct (take_while is_digit s) as [| c ds'] eqn:E;
    [discriminate|].
  intros [= <- <-]. rewrite <- E. split.
  - split; [rewrite E; discriminate | apply take_while_all].
  - symmetry. apply take_drop_while.
Qed.

Lemma fraction_opt_fraction s f after :
  fraction_opt s = (f, after) -> fraction f /\ s = f ++ after.
Proof.
  destruct s as [| c rest]; cbn [fraction_opt].
  - intros [= <- <-]. split; [now left | reflexivity].
  - destruct (Ascii.eqb_spec c ".") as [-> |]; intros [= <- <-].
    + split.
      * right. eexists. split; [apply take_while_all | reflexivity].
      * cbn [append]. now rewrite take_drop_while.
    + split; [now left | reflexivity].
Qed.

Lemma exponent_opt_exponent s e after :
  exponent_opt s = (e, after) -> exponent e /\ s = e ++ after.
Proof.
  destruct s as [| c rest]; cbn [exponent_opt];
    [intros [= <- <-]; split; [now left | reflexivity]|].
  destruct (Ascii.eqb c "e" || Ascii.eqb c "E") eqn:Ec;
    [| intros [= <- <-]; split; [now left | reflexivity]].
  assert (Hc : (c = "e" \/ c = "E")%char).
  { apply orb_true_iff in Ec. destruct Ec as [E | E];
      apply Ascii.eqb_eq in E; auto. }
  destruct rest as [| sg rest1];
    [intros [= <- <-]; split; [now left | reflexivity]|].
  destruct (Ascii.eqb sg "+" || Ascii.eqb sg "-") eqn:Es.
  - destruct (digits1 rest1) as [[ds after'] |] eqn:Ed; intros [= <- <-];
      [| split; [now left | reflexivity]].
    apply digits1_digits in Ed. destruct Ed as (Hds & ->).
    split; [| reflexivity].
    right. exists c, (String sg ""), ds. repeat split; try assumption;
      try (apply Hds).
    apply orb_true_iff in Es. destruct Es as [E | E];
      apply Ascii.eqb_eq in E; subst; auto.
  - destruct (digits1 (String sg rest1)) as [[ds after'] |] eqn:Ed;
      intros [= <- <-]; [| split; [now left | reflexivity]].
    apply digits1_digits in Ed. destruct Ed as (Hds & Hs).
    split; [| now rewrite Hs].
    right. exists c, "", ds. repeat split; try assumption; try (apply Hds).
    now left.
Qed.

Lemma unsigned_number_number s m after :
  unsigned_number s = Some (m, after) ->
  (exists ds f e, digits ds /\ fraction f /\ exponent e /\ m = ds ++ f ++ e)
  /\ s = m ++ after.
Proof.
  unfold unsigned_number.
  destruct (digits1 s) as [[ds a1] |] eqn:Ed; [| discriminate].
  destruct (fraction_opt a1) as [f a2] eqn:Ef.
  destruct (exponent_opt a2) as [e a3] eqn:Ee.
  intros [= <- <-].
  apply digits1_digits in Ed. destruct Ed as (Hds & ->).
  apply fraction_opt_fraction in Ef. destruct Ef as (Hf & ->).
  apply exponent_opt_exponent in Ee. destruct Ee as (He & ->).
  split; [| now rewrite !append_assoc].
  exists ds, f, e. auto.
Qed.

Lemma match_number_number s m after :
  match_number s = Some (m, after) -> number m /\ s = m ++ after.
Proof.
  destruct s as [| c rest]; [discriminate|]. cbn [match_number].
  destruct (Ascii.eqb_spec c "-") as [-> |].
  - intro H. apply cons_result_some in H. destruct H as (m' & H & ->).
    apply unsigned_number_number in H.
    destruct H as ((ds & f & e & Hds & Hf & He & ->) & ->).
    split; [| reflexivity].
    exists "-", ds, f, e. repeat split; try assumption; try apply Hds.
    now right.
  - intro H. apply unsigned_number_number in H.
    destruct H as ((ds & f & e & Hds & Hf & He & ->) & Hs).
    split; [| assumption].
    exists "", ds, f, e. repeat split; try assumption; try apply Hds.
    now left.
Qed.

Lemma take_while_app f ds R :
  forall_chars f ds = true ->
  take_while f (ds ++ R) = ds ++ take_while f R /\
  drop_while f (ds ++ R) = drop_while f R.
Proof.
  induction ds as [| c ds IH]; cbn [append forall_chars take_while drop_while];
    [auto|].
  intro H. apply andb_true_iff in H. destruct H as [Hc Hds].
  rewrite Hc. destruct (IH Hds) as [-> ->]. auto.
Qed.

Lemma digits1_app ds R :
  digits ds ->
  digits1 (ds ++ R) =
  Some (ds ++ take_while is_digit R, drop_while is_digit R).
Proof.
  intros [Hne Hds]. unfold digits1.
  destruct (take_while_app is_digit ds R Hds) as [-> ->].
  destruct ds; [contradiction | reflexivity].
Qed.

Lemma digit_not_sign d :
  is_digit d = true -> Ascii.eqb d "+" || Ascii.eqb d "-" = false.
Proof.
  intro H.
  destruct (Ascii.eqb_spec d "+") as [-> |]; [discriminate H|].
  destruct (Ascii.eqb_spec d "-") as [-> |]; [discriminate H | reflexivity].
Qed.

Lemma exponent_opt_found c sign eds after :
  (c = "e" \/ c = "E")%char -> (sign = "" \/ sign = "+" \/ sign = "-") ->
  digits eds ->
  exists e2 after2,
    exponent_opt (String c (sign ++ eds) ++ after) = (e2, after2) /\
    String.length (String c (sign ++ eds)) <= String.length e2.
Proof.
  intros Hc Hsign Heds.
  assert (Ec : Ascii.eqb c "e" || Ascii.eqb c "E" = true)
    by (destruct Hc as [-> | ->]; reflexivity).
  cbn [append exponent_opt]. rewrite Ec.
  destruct Hsign as [-> | [-> | ->]].
  - cbn [append]. pose proof Heds as [Hne Hall].
    destruct eds as [| d eds']; [contradiction|].
    cbn [append]. cbn [forall_chars] in Hall.
    apply andb_true_iff in Hall. destruct Hall as [Hd _].
    rewrite (digit_not_sign d Hd).
    change (String d (eds' ++ after)) with (String d eds' ++ after).
    rewrite (digits1_app _ _ Heds).
    eexists _, _. split; [reflexivity|].
    cbn [String.length]. rewrite !length_app. cbn [String.length]. lia.
  - cbn [append]. change (Ascii.eqb "+" "+" || Ascii.eqb "+" "-") with true.
    cbn iota. rewrite (digits1_app _ _ Heds).
    eexists _, _. split; [reflexivity|].
    cbn [String.length]. rewrite !length_app. lia.
  - cbn [append]. change (Ascii.eqb "-" "+" || Ascii.eqb "-" "-") with true.
    cbn iota. rewrite (digits1_app _ _ Heds).
    eexists _, _. split; [reflexivity|].
    cbn [String.length]. rewrite !length_app. lia.
Qed.


Lemma unsigned_number_longest ds f e after :
  digits ds -> fraction f -> exponent e ->
  exists m2 after2,
    unsigned_number (ds ++ f ++ e ++ after) = Some (m2, after2) /\
    String.length (ds ++ f ++ e) <= String.length m2.
Proof.
  intros Hds Hf He. unfold unsigned_number.
  rewrite (digits1_app _ _ Hds).
  destruct Hf as [-> | (fd & Hfd & ->)].
  - destruct He as [-> | (c & sign & eds & Hc & Hsign & Heds & ->)].
    + cbn [append].
      destruct (fraction_opt _) as [f2 a2].
      destruct (exponent_opt _) as [e2 a3].
      eexists _, _. split; [reflexivity|].
      rewrite !length_app. cbn [String.length]. lia.
    + cbn [append].
      assert (Hnd : is_digit c = false)
        by (destruct Hc as [-> | ->]; reflexivity).
      cbn [take_while drop_while]. rewrite Hnd.
      assert (Hdot : Ascii.eqb c "." = false)
        by (destruct Hc as [-> | ->]; reflexivity).
      cbn [fraction_opt]. rewrite Hdot.
      destruct (exponent_opt_found c sign eds after Hc Hsign Heds)
        as (e2 & a2 & He2 & Hlen).
      cbn [append] in He2. rewrite He2.
      eexists _, _. split; [reflexivity|].
      cbn [String.length] in Hlen. rewrite length_app in Hlen.
      repeat first [rewrite length_app | progress cbn [String.length]]. lia.
  - cbn [append take_while drop_while].
    change (is_digit ".") with false. cbn iota.
    cbn [fraction_opt]. change (Ascii.eqb "." ".") with true. cbn iota.
    destruct (take_while_app is_digit fd (e ++ after) Hfd) as [-> ->].
    destruct He as [-> | (c & sign & eds & Hc & Hsign & Heds & ->)].
    + cbn [append]. destruct (exponent_opt _) as [e2 a3].
      eexists _, _. split; [reflexivity|].
      rewrite !length_app. cbn [String.length].
      rewrite !length_app. cbn [String.length]. lia.
    + assert (Hnd : is_digit c = false)
        by (destruct Hc as [-> | ->]; reflexivity).
      cbn [append take_while drop_while]. rewrite Hnd.
      destruct (exponent_opt_found c sign eds after Hc Hsign Heds)
        as (e2 & a2 & He2 & Hlen).
      cbn [append] in He2. rewrite He2.
      eexists _, _. split; [reflexivity|].
      cbn [String.length] in Hlen. rewrite length_app in Hlen.
      repeat first [rewrite length_app | progress cbn [String.length]]. lia.
Qed.

(** A text that begins with a minus or a digit is met by the third
    alternative only. *)
Lemma number_start_only c rest prev :
  c = "-"%char \/ is_digit c = true ->
  match_string (String c rest) = None /\
  match_literal prev (String c rest) = None.
Proof.
  intro Hc.
  assert (Hq : Ascii.eqb c quot = false).
  { destruct (Ascii.eqb_spec c quot) as [-> |]; [| reflexivity].
    destruct Hc as [Hc | Hc]; discriminate Hc. }
  assert (Ht : Ascii.eqb "t" c = false).
  { destruct (Ascii.eqb_spec "t" c) as [<- |]; [| reflexivity].
    destruct Hc as [Hc | Hc]; discriminate Hc. }
  assert (Hf : Ascii.eqb "f" c = false).
  { destruct (Ascii.eqb_spec "f" c) as [<- |]; [| reflexivity].
    destruct Hc as [Hc | Hc]; discriminate Hc. }
  assert (Hn : Ascii.eqb "n" c = false).
  { destruct (Ascii.eqb_spec "n" c) as [<- |]; [| reflexivity].
    destruct Hc as [Hc | Hc]; discriminate Hc. }
  split.
  - unfold match_string. cbn [match_quoted]. now rewrite Hq.
  - unfold match_literal, word_here. cbn [strip_prefix].
    rewrite Ht, Hf, Hn. now destruct (is_word_opt prev).
Qed.

Lemma number_found m : number m ->
  forall prev after,
  exists m2 after2,
    match_at prev (m ++ after) = Some (m2, after2) /\
    String.length m <= String.length m2.
Proof.
  intros (sign & ds & f & e & Hsign & Hds & Hf & He & ->) prev after.
  destruct (unsigned_number_longest ds f e after Hds Hf He)
    as (m2 & after2 & Hm2 & Hlen).
  pose proof Hds as [Hne Hall].
  destruct ds as [| d ds']; [contradiction|].
  cbn [forall_chars] in Hall. apply andb_true_iff in Hall.
  destruct Hall as [Hd _].
  unfold match_at.
  destruct Hsign as [-> | ->]; cbn [append] in *; rewrite !append_assoc.
  - destruct (number_start_only d (ds' ++ f ++ e ++ after) prev (or_intror Hd))
      as [Hs Hl].
    rewrite Hs, Hl. cbn [match_number].
    destruct (Ascii.eqb_spec d "-") as [-> |]; [discriminate Hd|].
    rewrite Hm2. eexists _, _. split; [reflexivity | assumption].
  - destruct (number_start_only "-" (String d (ds' ++ f ++ e ++ after)) prev
                (or_introl eq_refl)) as [Hs Hl].
    rewrite Hs, Hl. cbn [match_number].
    change (Ascii.eqb "-" "-") with true. cbn iota. rewrite Hm2.
    eexists _, _. split; [reflexivity|].
    cbn [cons_result String.length] in *. lia.
Qed.

Lemma literal_found w prev after :
  w = "true" \/ w = "false" \/ w = "null" ->
  is_word_opt prev = false -> is_word_opt (first_char after) = false ->
  match_at prev (w ++ after) = Some (w, after).
Proof.
  intros Hw Hprev Hafter. unfold match_at, match_string, match_literal.
  rewrite Hprev.
  destruct Hw as [-> | [-> | ->]]; unfold word_here;
    cbn [append match_quoted strip_prefix Ascii.eqb Bool.eqb andb quot];
    now rewrite Hafter.
Qed.

(** Every token at a position is found by the scan, or a longer one
    is. *)
Lemma token_found prev cls m after :
  token_at prev cls m after ->
  exists m2 after2,
    match_at prev (m ++ after) = Some (m2, after2) /\
    String.length m <= String.length m2.
Proof.
  intros [q ws after0 Hq Hws | q after0 Hq | w after0 Hw Hp Ha | after0 Hp Ha
          | n after0 Hn].
  - unfold match_at, match_string.
    rewrite !append_assoc, (match_quoted_complete q _ Hq).
    rewrite (colon_group_complete ws after0 Hws).
    eexists _, _. split; [reflexivity | lia].
  - unfold match_at, match_string.
    rewrite (match_quoted_complete q _ Hq).
    destruct (colon_group after0) as [[g a2] |];
      eexists _, _; (split; [reflexivity|]); rewrite ?length_app; lia.
  - rewrite (literal_found w prev after0); [| tauto | assumption | assumption].
    eexists _, _. split; [reflexivity | lia].
  - rewrite (literal_found "null" prev after0); auto.
    eexists _, _. split; [reflexivity | lia].
  - now apply number_found.
Qed.

(** The class of a token is the class that the callback chooses. *)

Lemma number_chars m : number m ->
  forall_chars is_number_char m = true /\
  exists c m', m = String c m' /\ is_number_char c = true.
Proof.
  intros (sign & ds & f & e & Hsign & [Hne Hds] & Hf & He & ->).
  assert (Hds' : forall_chars is_number_char ds = true)
    by (apply (forall_chars_weaken is_digit);
        [apply digit_number_char | assumption]).
  assert (Hsign' : forall_chars is_number_char sign = true)
    by (destruct Hsign as [-> | ->]; reflexivity).
  assert (Hf' : forall_chars is_number_char f = true).
  { destruct Hf as [-> | (fd & Hfd & ->)]; [reflexivity|].
    cbn [forall_chars].
    now rewrite (forall_chars_weaken is_digit _ fd digit_number_char Hfd). }
  assert (He' : forall_chars is_number_char e = true).
  { destruct He as [-> | (c & sg & eds & Hc & Hsg & [_ Heds] & ->)];
      [reflexivity|].
    cbn [forall_chars]. rewrite forall_chars_app.
    rewrite (forall_chars_weaken is_digit _ eds digit_number_char Heds).
    destruct Hc as [-> | ->]; destruct Hsg as [-> | [-> | ->]]; reflexivity. }
  split; [now rewrite !forall_chars_app, Hsign', Hds', Hf', He'|].
  destruct ds as [| d ds']; [contradiction|].
  cbn [forall_chars] in Hds'. apply andb_true_iff in Hds'.
  destruct Hsign as [-> | ->]; cbn [append]; eexists _, _;
    (split; [reflexivity|]); [tauto | reflexivity].
Qed.

Lemma quoted_ends q : quoted q ->
  starts_with_quote q = true /\ last_char q = Some quot.
Proof.
  intros (b & _ & ->). unfold dq. split; [apply Ascii.eqb_refl|].
  change (String quot (b ++ String quot "")) with
    (String quot b ++ String quot "").
  now rewrite last_char_app.
Qed.

Lemma token_class prev cls m after :
  token_at prev cls m after -> class_of m = cls.
Proof.
  intros [q ws after0 Hq Hws | q after0 Hq | w after0 Hw Hp Ha | after0 Hp Ha
          | n after0 Hn].
  - destruct (quoted_ends q Hq) as [Hstart _].
    unfold class_of, ends_with_colon.
    destruct q as [| c q']; [discriminate|]. simpl in Hstart.
    cbn [append starts_with_quote]. rewrite Hstart.
    change (String c (q' ++ ws ++ ":")) with (String c q' ++ ws ++ ":").
    rewrite <- append_assoc, last_char_app by discriminate.
    reflexivity.
  - destruct (quoted_ends q Hq) as [Hstart Hlast].
    unfold class_of, ends_with_colon. now rewrite Hstart, Hlast.
  - destruct Hw as [-> | ->]; reflexivity.
  - reflexivity.
  - destruct (number_chars n Hn) as [Hall Hfirst].
    now apply number_class.
Qed.

Lemma token_nonempty prev cls m after :
  token_at prev cls m after -> m <> "".
Proof.
  intros [q ws after0 Hq Hws | q after0 Hq | w after0 Hw Hp Ha | after0 Hp Ha
          | n after0 Hn].
  - destruct Hq as (b & _ & ->). discriminate.
  - destruct Hq as (b & _ & ->). discriminate.
  - destruct Hw as [-> | ->]; discriminate.
  - discriminate.
  - destruct (number_chars n Hn) as [_ (c & m' & -> & _)]. discriminate.
Qed.

Lemma word_here_boundary w s m after :
  word_here w s = Some (m, after) ->
  m = w /\ s = w ++ after /\ is_word_opt (first_char after) = false.
Proof.
  unfold word_here. destruct (strip_prefix w s) as [rest |] eqn:E;
    [| discriminate].
  destruct (is_word_opt (first_char rest)) eqn:Ew; [discriminate|].
  intros [= <- <-]. split; [reflexivity|].
  split; [now apply strip_prefix_app | assumption].
Qed.

(** Every match of the scan is a token, of the class that the callback
    chooses for it. *)
Lemma match_at_sound prev s m after :
  match_at prev s = Some (m, after) ->
  s = m ++ after /\ token_at prev (class_of m) m after.
Proof.
  intro H.
  assert (Htoken : s = m ++ after /\ exists cls, token_at prev cls m after).
  { revert H. unfold match_at, match_string.
    destruct (match_quoted s) as [[q a1] |] eqn:Eq.
    - apply match_quoted_quoted in Eq. destruct Eq as [Hq ->].
      destruct (colon_group a1) as [[g a2] |] eqn:Eg; intros [= <- <-].
      + apply colon_group_sound in Eg. destruct Eg as (-> & ws & -> & Hws).
        split; [now rewrite !append_assoc|].
        exists "json-key". now constructor.
      + split; [reflexivity|]. exists "json-string". now constructor.
    - clear Eq. unfold match_literal.
      destruct (is_word_opt prev) eqn:Ep.
      { intro H. apply match_number_number in H. destruct H as [Hn ->].
        split; [reflexivity|]. exists "json-number". now constructor. }
      destruct (word_here "true" s) as [[m1 a1] |] eqn:E1.
      { intros [= <- <-]. apply word_here_boundary in E1.
        destruct E1 as (-> & -> & Ha). split; [reflexivity|].
        exists "json-boolean". constructor; auto. }
      destruct (word_here "false" s) as [[m2 a2] |] eqn:E2.
      { intros [= <- <-]. apply word_here_boundary in E2.
        destruct E2 as (-> & -> & Ha). split; [reflexivity|].
        exists "json-boolean". constructor; auto. }
      destruct (word_here "null" s) as [[m3 a3] |] eqn:E3.
      { intros [= <- <-]. apply word_here_boundary in E3.
        destruct E3 as (-> & -> & Ha). split; [reflexivity|].
        exists "json-null". now constructor. }
      intro H. apply match_number_number in H. destruct H as [Hn ->].
      split; [reflexivity|]. exists "json-number". now constructor. }
  destruct Htoken as [Hs (cls & Ht)]. split; [assumption|].
  now rewrite (token_class _ _ _ _ Ht).
Qed.

(** The match of the scan is the longest token at the position, and
    where the scan has no match no token starts. *)
Lemma match_at_the_match prev s m after :
  match_at prev s = Some (m, after) -> the_match prev s (class_of m) m after.
Proof.
  intro H. destruct (match_at_sound _ _ _ _ H) as [Hs Ht].
  split; [assumption|]. split; [assumption|].
  intros cls' m' after' Hs' Ht'.
  destruct (token_found _ _ _ _ Ht') as (m2 & after2 & Hm2 & Hlen).
  rewrite <- Hs', H in Hm2. now injection Hm2 as <- <-.
Qed.

Lemma match_at_none prev s :
  match_at prev s = None ->
  forall cls m after, s = m ++ after -> ~ token_at prev cls m after.
Proof.
  intros H cls m after Hs Ht.
  destruct (token_found _ _ _ _ Ht) as (m2 & after2 & Hm2 & _).
  rewrite <- Hs, H in Hm2. discriminate.
Qed.

Lemma wrap_app m out :
  wrap m ++ out =
  "<span class=" ++ dq (class_of m) ++ ">" ++ m ++ "</span>" ++ out.
Proof. unfold wrap. now rewrite !append_assoc. Qed.

(** The output of the scan is the tagged text. *)
Lemma pieces_tagged fuel : forall prev s,
  String.length s <= fuel ->
  tagged prev s (concat_strings (map render (pieces fuel prev s))).
Proof.
  induction fuel as [| fuel IH]; intros prev s Hlen.
  - destruct s; [constructor | simpl in Hlen; lia].
  - destruct s as [| c rest]; [constructor|]. cbn [pieces].
    destruct (match_at prev (String c rest)) as [[m after] |] eqn:E.
    + cbn [map render concat_strings fold_right].
      fold (concat_strings (map render (pieces fuel (last_char m) after))).
      rewrite wrap_app.
      pose proof (match_at_the_match _ _ _ _ E) as Hm.
      apply (tagged_match prev (String c rest) (class_of m) m after);
        [assumption|].
      apply IH. destruct Hm as (Hs & Ht & _).
      apply token_nonempty in Ht.
      apply (f_equal String.length) in Hs. rewrite length_app in Hs.
      destruct m; [contradiction|]. simpl in Hs, Hlen. lia.
    + cbn [map render concat_strings fold_right].
      fold (concat_strings (map render (pieces fuel (Some c) rest))).
      apply tagged_copy; [now apply match_at_none|].
      apply IH. simpl in Hlen. lia.
Qed.

Lemma append_same_length m : forall m' a a',
  m ++ a = m' ++ a' -> String.length m = String.length m' ->
  m = m' /\ a = a'.
Proof.
  induction m as [| c m IH]; intros [| c' m'] a a' H Hlen;
    try discriminate Hlen.
  - auto.
  - cbn [append] in H. injection H as -> H. injection Hlen as Hlen.
    destruct (IH _ _ _ H Hlen) as [-> ->]. auto.
Qed.

(** A text is tagged in one way only. *)
Lemma tagged_unique prev s out1 :
  tagged prev s out1 -> forall out2, tagged prev s out2 -> out1 = out2.
Proof.
  induction 1 as [prev | prev s cls m after out Hm _ IH
                  | prev c rest out Hnone _ IH];
    intros out2 H2.
  - inversion H2 as [| ? ? cls2 m2 after2 out' Hm2 _ |]; subst;
      [reflexivity|].
    destruct Hm2 as (Hs & Ht & _). apply token_nonempty in Ht.
    destruct m2; [contradiction | discriminate Hs].
  - destruct Hm as (-> & Ht & Hlong).
    inversion H2 as [p Ep Es Eo | p s2 cls2 m2 after2 out' Hm2 Hrest Ep Es Eo
                     | p c2 rest2 out' Hnone2 Hrest Ep Es Eo].
    + apply token_nonempty in Ht. destruct m; [contradiction | discriminate].
    + subst. destruct Hm2 as (Hs2 & Ht2 & Hlong2).
      pose proof (Hlong _ _ _ Hs2 Ht2). pose proof (Hlong2 _ _ _ eq_refl Ht).
      destruct (append_same_length m m2 after after2) as [<- <-];
        [assumption | lia |].
      rewrite <- (token_class _ _ _ _ Ht), <- (token_class _ _ _ _ Ht2).
      now rewrite (IH _ Hrest).
    + exfalso. exact (Hnone2 _ _ _ Es Ht).
  - inversion H2 as [| ? ? cls2 m2 after2 out' Hm2 Hrest
                     | ? c2 rest2 out' Hnone2 Hrest]; subst.
    + destruct Hm2 as (Hs2 & Ht2 & _). exfalso. exact (Hnone _ _ _ Hs2 Ht2).
    + now rewrite (IH _ Hrest).
Qed.

(** The text ["key": 5] of example 6 and the text ["a" : 1]. *)
Definition key_example : string := dq "key" ++ ": 5".
Definition spaced_key_example : string := dq "a" ++ " : 1".

(** C8 as stated fails at the text ["a" : 1]: the quoted string is
    followed by a space and not immediately by a colon, and it is
    wrapped, together with the space and the colon, in a key tag and
    not in a string tag. *)
Lemma highlight_key_before_space :
  match_quoted spaced_key_example = Some (dq "a", " : 1") /\
  first_char " : 1" <> Some ":"%char /\
  pieces (String.length spaced_key_example) None spaced_key_example =
    [Matched (dq "a" ++ " :"); Plain " "; Matched "1"] /\
  highlight spaced_key_example =
    "<span class=" ++ dq "json-key" ++ ">" ++ dq "a" ++ " :</span>"
    ++ " <span class=" ++ dq "json-number" ++ ">1</span>".
Proof. repeat split; try reflexivity. discriminate. Qed.

(** C8, amended.  The output is the escaped text with its tokens
    tagged, and no other text is: from left to right, wherever a
    token starts, the longest token there is wrapped in a tag that
    names its class, and every other code unit is copied.  A quoted
    string that is followed by optional white space and a colon is,
    with that white space and colon, a key; any other quoted string is
    a string; [true] and [false] are booleans and [null] is a null
    where they stand as words; a numeric text is a number.  In
    ["key": 5] the key with its colon is a key token and [5] is a
    number token. *)
Theorem highlight_classifies_tokens :
  (forall json out,
     tagged None (escape_text json) out <-> out = highlight json) /\
  highlight key_example =
    "<span class=" ++ dq "json-key" ++ ">" ++ dq "key" ++ ":</span>"
    ++ " <span class=" ++ dq "json-number" ++ ">5</span>".
Proof.
  split; [| reflexivity].
  intros json out.
  assert (Hout : tagged None (escape_text json) (highlight json))
    by (apply pieces_tagged; lia).
  split.
  - intro H. apply (tagged_unique _ _ _ H _ Hout).
  - now intros ->.
Qed.

End Highlight.

(** * Further properties of the code *)

(** ** [jsonDiff]: operands of different kind, paths, exchange of the
    operands, and what an empty result means *)

Module DiffLaws.

Import Diff.

Definition entry_path (e : diff_entry) : string :=
  match e with
  | Changed p _ _ | Added p _ | Removed p _ => p
  end.

(** Both operands are arrays, or both are plain objects. *)
Definition same_container (a b : value) : bool :=
  match a, b with
  | JArray _, JArray _ | JObject _, JObject _ => true
  | _, _ => false
  end.

Lemma different_kinds_changed (a b : value) (p : string) :
  same_container a b = false ->
  strict_eq (Tree a) (Tree b) = false ->
  jsonDiff (Tree a) (Tree b) p = Some [Changed p (Tree a) (Tree b)].
Proof.
  intros Hkind Heq. unfold jsonDiff.
  destruct a, b; try discriminate Hkind;
    cbn [compare jsheight height Nat.add] in *; rewrite ?Heq;
    try reflexivity; cbn [strict_eq]; reflexivity.
Qed.

(** Two operands that are not strictly equal and not two containers of
    one kind yield a single [Changed] entry at the path of the call,
    with the whole operands as old and new value; [compare] does not
    descend into either of them. *)
Theorem jsonDiff_single_changed (a b : value) (p : string) :
  same_container a b = false ->
  strict_eq (Tree a) (Tree b) = false ->
  jsonDiff (Tree a) (Tree b) p = Some [Changed p (Tree a) (Tree b)].
Proof. exact (different_kinds_changed a b p). Qed.

Lemma jsonDiff_single_changed_witness :
  same_container (JArray [JNull]) (JObject [("0", JNull)]) = false /\
  strict_eq (Tree (JArray [JNull])) (Tree (JObject [("0", JNull)])) = false /\
  jsonDiff (Tree (JArray [JNull])) (Tree (JObject [("0", JNull)])) root_path =
  Some [Changed "$" (Tree (JArray [JNull])) (Tree (JObject [("0", JNull)]))].
Proof.
  split; [reflexivity|]. split; [reflexivity|].
  apply jsonDiff_single_changed; reflexivity.
Defined.

(** [q] is [p] followed by some steps. *)
Definition under (p q : string) : Prop := exists steps, q = p ++ steps.

Lemma under_refl p : under p p.
Proof. exists "". now rewrite append_nil_r. Qed.

Lemma under_step p s q : under (p ++ s) q -> under p q.
Proof. intros (t & ->). exists (s ++ t). now rewrite append_assoc. Qed.

Lemma for_each_Forall {A B} (P : B -> Prop) (f : A -> option (list B)) l :
  (forall x r, In x l -> f x = Some r -> Forall P r) ->
  forall rs, for_each f l = Some rs -> Forall P rs.
Proof.
  induction l as [| x l IH]; intros H rs; simpl.
  - intros [= <-]. constructor.
  - destruct (f x) as [r |] eqn:Ef; [| discriminate].
    destruct (for_each f l) as [rs' |] eqn:El; [| discriminate].
    intros [= <-]. apply Forall_app. split.
    + apply (H x r); auto. now left.
    + apply IH; auto. intros y r' Hy. apply H. now right.
Qed.

Lemma compare_paths n : forall a b p r,
  compare n a b p = Some r -> Forall (fun e => under p (entry_path e)) r.
Proof.
  induction n as [| n IH]; intros a b p r; [discriminate|].
  cbn [compare].
  destruct (strict_eq a b); [intros [= <-]; constructor|].
  destruct (is_null a || is_null b || _ || _).
  { destruct (negb (is_undefined a) && negb (is_undefined b));
      [| destruct (is_undefined a)];
      intros [= <-]; repeat constructor; apply under_refl. }
  destruct (isArray a && isArray b).
  { apply for_each_Forall. intros i r' _.
    destruct (Nat.leb (array_length a) i);
      [intros [= <-]; repeat constructor; eexists; reflexivity|].
    destruct (Nat.leb (array_length b) i);
      [intros [= <-]; repeat constructor; eexists; reflexivity|].
    intro H. apply IH in H. eapply Forall_impl; [| exact H].
    intros e. apply under_step. }
  destruct (negb (Bool.eqb (isArray a) (isArray b)));
    [intros [= <-]; repeat constructor; apply under_refl|].
  apply for_each_Forall. intros key r' _.
  destruct (negb (has_property key a));
    [intros [= <-]; repeat constructor; eexists; reflexivity|].
  destruct (negb (has_property key b));
    [intros [= <-]; repeat constructor; eexists; reflexivity|].
  intro H. apply IH in H. eapply Forall_impl; [| exact H].
  intros e. apply under_step.
Qed.

(** Every entry of a result of [jsonDiff] lies at the path of the call
    or below it: its path is that path followed by member and index
    steps.  Nothing is said here about which calls return. *)
Theorem jsonDiff_paths_under (a b : jsval) (p : string)
  (r : list diff_entry) :
  jsonDiff a b p = Some r ->
  Forall (fun e => under p (entry_path e)) r.
Proof. intro Hr. apply (compare_paths _ _ _ _ _ Hr). Qed.

(** [{"a": [1], "b": null}] against [{"a": [1, null], "c": null}]. *)
Definition paths_left : value :=
  JObject [("a", JArray [JNumber num_one]); ("b", JNull)].
Definition paths_right : value :=
  JObject [("a", JArray [JNumber num_one; JNull]); ("c", JNull)].

Lemma jsonDiff_paths_under_witness :
  jsonDiff (Tree paths_left) (Tree paths_right) "$.x" =
    Some [Added "$.x.a[1]" (Tree JNull); Removed "$.x.b" (Tree JNull);
          Added "$.x.c" (Tree JNull)] /\
  Forall (fun e => under "$.x" (entry_path e))
    [Added "$.x.a[1]" (Tree JNull); Removed "$.x.b" (Tree JNull);
     Added "$.x.c" (Tree JNull)].
Proof.
  split; [reflexivity|].
  apply (jsonDiff_paths_under (Tree paths_left) (Tree paths_right)).
  reflexivity.
Defined.

(** *** Exchange of the operands *)

(** The entry for the exchanged operands. *)
Definition flip (e : diff_entry) : diff_entry :=
  match e with
  | Changed p old new => Changed p new old
  | Added p v => Removed p v
  | Removed p v => Added p v
  end.

Lemma SFeqb_true_sym x y : SFeqb x y = true -> SFeqb y x = true.
Proof.
  unfold SFeqb.
  destruct x as [s | s | | s m e], y as [s' | s' | | s' m' e']; simpl;
    try discriminate; try reflexivity;
    try (destruct s; discriminate); try (destruct s'; discriminate).
  - destruct s, s'; try discriminate; reflexivity.
  - change (Pos.compare_cont Eq m m') with (Pos.compare m m').
    change (Pos.compare_cont Eq m' m) with (Pos.compare m' m).
    destruct s, s'; try discriminate;
      destruct (Z.compare_spec e e'); try discriminate;
      destruct (Pos.compare_spec m m'); try discriminate;
      subst; now rewrite Z.compare_refl, Pos.compare_refl.
Qed.

Lemma SFeqb_sym x y : SFeqb x y = SFeqb y x.
Proof.
  destruct (SFeqb x y) eqn:E1, (SFeqb y x) eqn:E2; try reflexivity.
  - apply SFeqb_true_sym in E1. congruence.
  - apply SFeqb_true_sym in E2. congruence.
Qed.

Lemma strict_eq_sym a b : strict_eq a b = strict_eq b a.
Proof.
  destruct a as [[] | | |], b as [[] | | |]; try reflexivity; simpl.
  - now destruct b, b0.
  - apply SFeqb_sym.
  - apply String.eqb_sym.
  - apply String.eqb_sym.
Qed.

(** The condition of the first branch of [compare]. *)
Definition is_leaf_pair (a b : jsval) : bool :=
  is_null a || is_null b || negb (js_type_eqb (typeof a) (typeof b))
  || negb (js_type_eqb (typeof a) TyObject).

Lemma is_leaf_pair_sym a b : is_leaf_pair a b = is_leaf_pair b a.
Proof. destruct a as [[] | | |], b as [[] | | |]; reflexivity. Qed.

Lemma own_has key x : In key (object_keys x) -> has_property key x = true.
Proof.
  destruct x as [[] | | |]; cbn [object_keys has_property In]; try tauto.
  intro H. apply mem_In in H. now rewrite H.
Qed.

Lemma set_from_spec seen l :
  NoDup (set_from seen l) /\
  forall k, In k (set_from seen l) <-> In k l /\ mem k seen = false.
Proof.
  revert seen. induction l as [| x l IH]; intro seen; simpl.
  - split; [constructor | tauto].
  - destruct (mem x seen) eqn:E.
    + destruct (IH seen) as [Hnd Hin]. split; [assumption|].
      intro k. rewrite Hin. split; [tauto|].
      intros [[-> | H] Hk]; [congruence | tauto].
    + destruct (IH (x :: seen)) as [Hnd Hin]. split.
      * constructor; [| assumption]. rewrite Hin. simpl.
        rewrite String.eqb_refl. intros [_ H]. discriminate.
      * intro k. simpl. rewrite Hin. simpl.
        destruct (String.eqb_spec k x) as [-> | Hne]; simpl.
        -- split; [intros _; split; auto | intros _; now left].
        -- split.
           ++ intros [Hx | H]; [symmetry in Hx; contradiction | tauto].
           ++ intros [[Hx | H] Hk]; [symmetry in Hx; contradiction | tauto].
Qed.

Lemma new_Set_comm ka kb :
  Permutation (new_Set (ka ++ kb)%list) (new_Set (kb ++ ka)%list).
Proof.
  unfold new_Set.
  destruct (set_from_spec [] (ka ++ kb)%list) as [N1 I1].
  destruct (set_from_spec [] (kb ++ ka)%list) as [N2 I2].
  apply NoDup_Permutation; try assumption.
  intro k. rewrite I1, I2, !in_app_iff. tauto.
Qed.

Lemma for_each_permuted {A B} (f : A -> option (list B)) l l' :
  Permutation l l' ->
  forall rs, for_each f l = Some rs ->
  exists rs', for_each f l' = Some rs' /\ Permutation rs rs'.
Proof.
  induction 1 as [| x l l' _ IH | x y l | l l' l'' _ IH1 _ IH2];
    intros rs; simpl.
  - intros [= <-]. eauto.
  - destruct (f x) as [r |]; [| discriminate].
    destruct (for_each f l) as [rs0 |]; [| discriminate].
    intros [= <-]. destruct (IH rs0 eq_refl) as (rs' & -> & Hp).
    eexists. split; [reflexivity | now apply Permutation_app_head].
  - destruct (f y) as [ry |]; [| discriminate].
    destruct (f x) as [rx |]; [| destruct (for_each f l); discriminate].
    destruct (for_each f l) as [rs0 |]; [| discriminate].
    intros [= <-]. eexists. split; [reflexivity|].
    rewrite !app_assoc. apply Permutation_app_tail, Permutation_app_comm.
  - intro H. destruct (IH1 _ H) as (rs1 & H1 & P1).
    destruct (IH2 _ H1) as (rs2 & H2 & P2).
    exists rs2. split; [assumption | eapply Permutation_trans; eassumption].
Qed.

Lemma for_each_flipped {A} (f g : A -> option (list diff_entry)) l :
  (forall x r, In x l -> f x = Some r ->
     exists r', g x = Some r' /\ Permutation r' (map flip r)) ->
  forall rs, for_each f l = Some rs ->
  exists rs', for_each g l = Some rs' /\ Permutation rs' (map flip rs).
Proof.
  induction l as [| x l IH]; intros H rs; simpl.
  - intros [= <-]. exists []. auto.
  - destruct (f x) as [r |] eqn:Ef; [| discriminate].
    destruct (for_each f l) as [rs0 |] eqn:El; [| discriminate].
    intros [= <-].
    destruct (H x r (or_introl eq_refl) Ef) as (r' & -> & Pr).
    destruct (IH (fun y r0 Hy => H y r0 (or_intror Hy)) rs0 eq_refl)
      as (rs' & -> & Prs).
    eexists. split; [reflexivity|].
    rewrite map_app. now apply Permutation_app.
Qed.

Lemma compare_exchanged n : forall a b p r,
  compare n a b p = Some r ->
  exists r', compare n b a p = Some r' /\ Permutation r' (map flip r).
Proof.
  induction n as [| n IH]; intros a b p r; [discriminate|].
  cbn [compare]. rewrite (strict_eq_sym b a).
  destruct (strict_eq a b) eqn:Eeq; [intros [= <-]; exists []; auto|].
  change (is_null b || is_null a || negb (js_type_eqb (typeof b) (typeof a))
          || negb (js_type_eqb (typeof b) TyObject))
    with (is_leaf_pair b a).
  change (is_null a || is_null b || negb (js_type_eqb (typeof a) (typeof b))
          || negb (js_type_eqb (typeof a) TyObject))
    with (is_leaf_pair a b).
  rewrite (is_leaf_pair_sym b a).
  destruct (is_leaf_pair a b).
  { destruct a as [va | | |], b as [vb | | |]; cbn [is_undefined negb andb];
      try discriminate Eeq; intros [= <-]; eexists;
      (split; [reflexivity | apply Permutation_refl]). }
  rewrite (andb_comm (isArray b)), (Nat.max_comm (array_length b)).
  destruct (isArray a && isArray b).
  { apply for_each_flipped. intros i r0 Hi. apply in_seq in Hi.
    destruct (Nat.leb_spec (array_length a) i),
             (Nat.leb_spec (array_length b) i); try lia.
    - intros [= <-]. eexists.
      split; [reflexivity | apply Permutation_refl].
    - intros [= <-]. eexists.
      split; [reflexivity | apply Permutation_refl].
    - apply IH. }
  replace (Bool.eqb (isArray b) (isArray a))
    with (Bool.eqb (isArray a) (isArray b))
    by (destruct (isArray a), (isArray b); reflexivity).
  destruct (negb (Bool.eqb (isArray a) (isArray b))).
  { intros [= <-]. eexists. split; [reflexivity | apply Permutation_refl]. }
  intro H.
  destruct (for_each_permuted _ _ _
              (new_Set_comm (object_keys a) (object_keys b)) _ H)
    as (rs1 & H1 & P1).
  revert H1.
  match goal with
  | |- for_each ?f ?l = Some rs1 -> exists r', for_each ?g ?l = Some r' /\ _ =>
      intro H1;
      destruct (for_each_flipped f g l) with (rs := rs1) as (rs2 & H2 & P2);
      [| exact H1 |]
  end.
  - intros key r0 Hkey. cbv beta zeta.
    apply set_from_In, in_app_or in Hkey.
    destruct (has_property key a) eqn:Ha, (has_property key b) eqn:Hb;
      cbn [negb].
    + apply IH.
    + intros [= <-]. eexists.
      split; [reflexivity | apply Permutation_refl].
    + intros [= <-]. eexists.
      split; [reflexivity | apply Permutation_refl].
    + destruct Hkey as [Hk | Hk]; apply own_has in Hk; congruence.
  - exists rs2. split; [assumption|].
    eapply Permutation_trans; [exact P2|].
    apply Permutation_map, Permutation_sym, P1.
Qed.

(** Exchanging the two operands exchanges [Added] with [Removed] and
    the old with the new value of [Changed], entry by entry: the result
    for [(b, a)] holds the flipped entries of the result for [(a, b)],
    in the key order of [b] instead of that of [a]. *)
Theorem jsonDiff_exchanged (a b : jsval) (p : string) :
  exists r r',
    jsonDiff a b p = Some r /\ jsonDiff b a p = Some r' /\
    Permutation r' (map flip r).
Proof.
  destruct (jsonDiff_total a b p) as (r & Hr).
  destruct (compare_exchanged _ _ _ _ _ Hr) as (r' & Hr' & P).
  exists r, r'. repeat split; try assumption.
  unfold jsonDiff. rewrite Nat.add_comm. exact Hr'.
Qed.

(** *** What an empty result means *)

Fixpoint unique (l : list string) : bool :=
  match l with
  | [] => true
  | k :: l' => negb (mem k l') && unique l'
  end.

(** No object of [v] lists a property name twice, and no property name
    of [v] is one of [object_prototype_names]. *)
Fixpoint plain (v : value) : bool :=
  match v with
  | JArray items => forallb plain items
  | JObject entries =>
      unique (map fst entries)
      && forallb (fun e => negb (mem (fst e) object_prototype_names)
                           && plain (snd e)) entries
  | _ => true
  end.

(** [a] and [b] hold the same data: the same scalars, numbers being
    compared as [===] compares them, lists equal position by position,
    and objects with the same property names, in any order, and the
    same data under each name. *)
Fixpoint same_data (a b : value) : bool :=
  match a, b with
  | JNull, JNull => true
  | JBool x, JBool y => Bool.eqb x y
  | JNumber x, JNumber y => SFeqb x y
  | JString x, JString y => String.eqb x y
  | JArray la, JArray lb =>
      (fix all2 (la lb : list value) : bool :=
         match la, lb with
         | [], [] => true
         | x :: la', y :: lb' => same_data x y && all2 la' lb'
         | _, _ => false
         end) la lb
  | JObject ea, JObject eb =>
      forallb (fun e => match lookup (fst e) eb with
                        | Some y => same_data (snd e) y
                        | None => false
                        end) ea
      && forallb (fun e => mem (fst e) (map fst ea)) eb
  | _, _ => false
  end.

Lemma unique_NoDup l : unique l = true -> NoDup l.
Proof.
  induction l as [| k l IH]; simpl; [constructor|].
  intro H. apply andb_true_iff in H. destruct H as [Hk Hl].
  constructor; [| auto]. intro Hin. apply mem_In in Hin.
  now rewrite Hin in Hk.
Qed.

Lemma lookup_NoDup k x entries :
  NoDup (map fst entries) -> In (k, x) entries -> lookup k entries = Some x.
Proof.
  induction entries as [| [k' x'] entries IH]; simpl; [tauto|].
  intros Hnd [[= -> ->] | Hin].
  - now rewrite String.eqb_refl.
  - inversion Hnd as [| ? ? Hk Hrest]; subst.
    destruct (String.eqb_spec k k') as [-> |]; [| auto].
    exfalso. apply Hk. apply (in_map fst) in Hin. exact Hin.
Qed.

Lemma lookup_none k entries :
  mem k (map fst entries) = false -> lookup k entries = None.
Proof.
  induction entries as [| [k' x'] entries IH]; simpl; [reflexivity|].
  destruct (String.eqb k k'); [discriminate | auto].
Qed.

Lemma plain_member entries k x :
  plain (JObject entries) = true -> In (k, x) entries ->
  plain x = true /\ mem k object_prototype_names = false.
Proof.
  cbn [plain]. intros H Hin. apply andb_true_iff in H. destruct H as [_ H].
  rewrite forallb_forall in H. specialize (H _ Hin). cbn [fst snd] in H.
  apply andb_true_iff in H. destruct H as [H1 H2].
  split; [assumption | now apply negb_true_iff].
Qed.

Lemma plain_names entries :
  plain (JObject entries) = true ->
  NoDup (map fst entries) /\
  forall k, In k (map fst entries) -> ~ In k object_prototype_names.
Proof.
  intro H. split.
  - cbn [plain] in H. apply andb_true_iff in H. now apply unique_NoDup.
  - intros k Hk Hproto. apply in_map_iff in Hk.
    destruct Hk as ([k' x] & <- & Hin).
    destruct (plain_member _ _ _ H Hin) as [_ Hm].
    apply mem_In in Hproto. cbn [fst] in Hproto. congruence.
Qed.

Lemma for_each_nothing {A B} (f : A -> option (list B)) l :
  for_each f l = Some [] <-> forall x, In x l -> f x = Some [].
Proof.
  split; [| apply for_each_silent].
  induction l as [| x l IH]; simpl; [tauto|].
  destruct (f x) as [r |] eqn:Ef; [| discriminate].
  destruct (for_each f l) as [rs |]; [| discriminate].
  intros [= H]. apply app_eq_nil in H. destruct H as [-> ->].
  intros y [<- | Hy]; [assumption | now apply IH].
Qed.

Fixpoint all2 (R : value -> value -> bool) (la lb : list value) : bool :=
  match la, lb with
  | [], [] => true
  | x :: la', y :: lb' => R x y && all2 R la' lb'
  | _, _ => false
  end.

Lemma same_data_lists la : forall lb,
  same_data (JArray la) (JArray lb) = all2 same_data la lb.
Proof.
  induction la as [| x la IH]; destruct lb as [| y lb]; try reflexivity.
  specialize (IH lb). cbn [same_data all2] in *. now rewrite IH.
Qed.

Lemma all2_positional R la : forall lb,
  all2 R la lb = true <->
  forall i, i < Nat.max (length la) (length lb) ->
    match nth_error la i, nth_error lb i with
    | Some x, Some y => R x y = true
    | _, _ => False
    end.
Proof.
  induction la as [| x la IH]; destruct lb as [| y lb]; cbn [all2 length].
  - split; [intros _ i Hi; simpl in Hi; lia | reflexivity].
  - split; [discriminate|]. intro H. destruct (H 0); simpl; lia.
  - split; [discriminate|]. intro H. exfalso. apply (H 0). simpl. lia.
  - rewrite andb_true_iff, IH. split.
    + intros [Hxy Hrest] [| i] Hi; [exact Hxy|].
      apply Hrest. simpl in Hi. lia.
    + intro H. split; [apply (H 0); simpl; lia|].
      intros i Hi. apply (H (S i)). simpl. lia.
Qed.

(** For [x] and every [b], the result is empty exactly if the two hold
    the same data. *)
Definition empty_iff_same (x : value) : Prop :=
  forall b p, plain x = true -> plain b = true ->
  (jsonDiff (Tree x) (Tree b) p = Some [] <-> same_data x b = true).

Lemma scalar_empty_iff_same a b p :
  same_container a b = false ->
  (jsonDiff (Tree a) (Tree b) p = Some [] <-> same_data a b = true).
Proof.
  intro Hkind. destruct (strict_eq (Tree a) (Tree b)) eqn:Eeq.
  - destruct a, b; try discriminate; cbn [strict_eq] in Eeq;
      unfold jsonDiff; cbn [compare jsheight height Nat.add strict_eq same_data];
      rewrite ?Eeq; tauto.
  - rewrite (different_kinds_changed _ _ _ Hkind Eeq).
    destruct a, b; try discriminate Hkind; cbn [strict_eq] in Eeq;
      cbn [same_data]; rewrite ?Eeq; split; discriminate.
Qed.

Lemma lists_by_position (a b : list value) (p : string) :
  jsonDiff (Tree (JArray a)) (Tree (JArray b)) p =
  for_each
    (fun i =>
       match nth_error a i, nth_error b i with
       | Some x, Some y => jsonDiff (Tree x) (Tree y) (item_path p i)
       | None, Some y => Some [Added (item_path p i) (Tree y)]
       | Some x, None => Some [Removed (item_path p i) (Tree x)]
       | None, None => Some []
       end)
    (seq 0 (Nat.max (length a) (length b))).
Proof.
  unfold jsonDiff at 1. cbn [compare strict_eq is_null typeof js_type_eqb
    orb negb isArray andb array_length].
  apply for_each_pointwise. intros i Hi. apply in_seq in Hi.
  unfold item_path. cbn [index].
  destruct (nth_error a i) as [x |] eqn:Ea, (nth_error b i) as [y |] eqn:Eb.
  - assert (i < length a) by (apply nth_error_Some; congruence).
    assert (i < length b) by (apply nth_error_Some; congruence).
    destruct (Nat.leb_spec (length a) i); [lia|].
    destruct (Nat.leb_spec (length b) i); [lia|].
    apply compare_jsonDiff.
    apply nth_error_In in Ea, Eb.
    apply height_item in Ea, Eb. cbn [jsheight]. lia.
  - assert (i < length a) by (apply nth_error_Some; congruence).
    apply nth_error_None in Eb.
    destruct (Nat.leb_spec (length a) i); [lia|].
    destruct (Nat.leb_spec (length b) i); [reflexivity | lia].
  - apply nth_error_None in Ea.
    destruct (Nat.leb_spec (length a) i); [reflexivity | lia].
  - apply nth_error_None in Ea. apply nth_error_None in Eb. lia.
Qed.

Lemma lists_empty_iff_same la lb p :
  Forall empty_iff_same la ->
  forallb plain la = true -> forallb plain lb = true ->
  (jsonDiff (Tree (JArray la)) (Tree (JArray lb)) p = Some [] <->
   all2 same_data la lb = true).
Proof.
  intros IH Ha Hb.
  rewrite lists_by_position, for_each_nothing, all2_positional.
  rewrite Forall_forall in IH. rewrite forallb_forall in Ha, Hb.
  split; intros H i Hi.
  - specialize (H i (proj2 (in_seq _ _ _) (conj (Nat.le_0_l i) Hi))).
    destruct (nth_error la i) as [x |] eqn:Ex,
             (nth_error lb i) as [y |] eqn:Ey; try discriminate H.
    + apply nth_error_In in Ex, Ey.
      apply (IH x Ex y (item_path p i) (Ha _ Ex) (Hb _ Ey)), H.
    + apply nth_error_None in Ex, Ey. lia.
  - apply in_seq in Hi. specialize (H i (proj2 Hi)).
    destruct (nth_error la i) as [x |] eqn:Ex,
             (nth_error lb i) as [y |] eqn:Ey; try contradiction.
    apply nth_error_In in Ex, Ey.
    now apply (IH x Ex y (item_path p i) (Ha _ Ex) (Hb _ Ey)).
Qed.

Lemma objects_empty_iff_same ea eb p :
  Forall (fun e => empty_iff_same (snd e)) ea ->
  plain (JObject ea) = true -> plain (JObject eb) = true ->
  (jsonDiff (Tree (JObject ea)) (Tree (JObject eb)) p = Some [] <->
   same_data (JObject ea) (JObject eb) = true).
Proof.
  intros IH Ha Hb.
  destruct (plain_names _ Ha) as [Na Pa], (plain_names _ Hb) as [Nb Pb].
  rewrite jsonDiff_objects_own_names; try assumption.
  2:{ intros k Hk. apply in_app_or in Hk. destruct Hk; auto. }
  rewrite for_each_nothing. cbn [same_data].
  rewrite andb_true_iff, !forallb_forall. rewrite Forall_forall in IH.
  split.
  - intro H. split.
    + intros [k x] Hin. cbn [fst snd].
      assert (Hk : In k (map fst ea)) by (apply (in_map fst) in Hin; exact Hin).
      specialize (H k (in_or_app _ _ _ (or_introl Hk))).
      rewrite (lookup_NoDup _ _ _ Na Hin) in H.
      destruct (lookup k eb) as [y |] eqn:Ey; [| discriminate H].
      apply lookup_In in Ey.
      apply (IH _ Hin y (member_path p k)
                (proj1 (plain_member _ _ _ Ha Hin))
                (proj1 (plain_member _ _ _ Hb Ey))), H.
    + intros [k y] Hin. cbn [fst].
      destruct (mem k (map fst ea)) eqn:Em; [reflexivity|]. exfalso.
      assert (Hk : In k (filter (fun k => negb (mem k (map fst ea)))
                                (map fst eb))).
      { apply filter_In. split; [| now rewrite Em].
        apply (in_map fst) in Hin. exact Hin. }
      specialize (H k (in_or_app _ _ _ (or_intror Hk))).
      rewrite (lookup_none _ _ Em), (lookup_NoDup _ _ _ Nb Hin) in H.
      discriminate H.
  - intros [H1 H2] k Hk. apply in_app_or in Hk. destruct Hk as [Hk | Hk].
    + destruct (lookup_own _ _ Hk) as (x & Ex). rewrite Ex.
      apply lookup_In in Ex. specialize (H1 _ Ex). cbn [fst snd] in H1.
      destruct (lookup k eb) as [y |] eqn:Ey; [| discriminate H1].
      apply lookup_In in Ey.
      now apply (IH _ Ex y (member_path p k)
                    (proj1 (plain_member _ _ _ Ha Ex))
                    (proj1 (plain_member _ _ _ Hb Ey))).
    + apply filter_In in Hk. destruct Hk as [Hk Hm].
      apply in_map_iff in Hk. destruct Hk as ([k' y] & <- & Hin).
      specialize (H2 _ Hin). cbn [fst] in *. now rewrite H2 in Hm.
Qed.

(** For two tree values in which no object repeats a property name and
    no property is named like a property of [Object.prototype],
    [jsonDiff] returns no entry exactly if the two hold the same data:
    equal scalars (numbers as [===] compares them, so that [0] and
    [-0] agree), lists equal position by position and objects with the
    same members in any order. *)
Theorem jsonDiff_empty_iff_same_data (a b : value) (p : string) :
  plain a = true -> plain b = true ->
  (jsonDiff (Tree a) (Tree b) p = Some [] <-> same_data a b = true).
Proof.
  revert b p. change (empty_iff_same a).
  induction a as [| x | x | x | la IH | ea IH] using value_ind;
    intros b p Ha Hb;
    try (apply scalar_empty_iff_same; destruct b; reflexivity).
  - destruct b as [| | | | lb |];
      try (apply scalar_empty_iff_same; reflexivity).
    rewrite same_data_lists. now apply lists_empty_iff_same.
  - destruct b as [| | | | | eb];
      try (apply scalar_empty_iff_same; reflexivity).
    now apply objects_empty_iff_same.
Qed.

(** [{"b": [0], "a": null}] and [{"a": null, "b": [-0]}]. *)
Definition reordered_left : value :=
  JObject [("b", JArray [JNumber (S754_zero false)]); ("a", JNull)].
Definition reordered_right : value :=
  JObject [("a", JNull); ("b", JArray [JNumber (S754_zero true)])].

Lemma jsonDiff_empty_iff_same_data_witness :
  plain reordered_left = true /\ plain reordered_right = true /\
  same_data reordered_left reordered_right = true /\
  jsonDiff (Tree reordered_left) (Tree reordered_right) root_path = Some [].
Proof.
  split; [reflexivity|]. split; [reflexivity|]. split; [reflexivity|].
  apply (jsonDiff_empty_iff_same_data reordered_left reordered_right);
    reflexivity.
Defined.

(** Without the condition on the names the result can be empty for
    different data: a left member [__proto__] that is an empty object
    is compared with the [Object.prototype] that the right object
    inherits under that name, which has no enumerable property. *)
Lemma jsonDiff_empty_for_different_data :
  jsonDiff (Tree (JObject [("__proto__", JObject [])])) (Tree (JObject []))
           root_path = Some [] /\
  same_data (JObject [("__proto__", JObject [])]) (JObject []) = false.
Proof. split; reflexivity. Qed.

End DiffLaws.

(** ** [getJSONStats]: order of the keys, and how the counters bound
    each other *)

Module StatsLaws.

Import Stats.

(** [w] is [v] with the members of some of its objects in another
    order. *)
Inductive reordered : value -> value -> Prop :=
| reordered_refl v : reordered v v
| reordered_trans u v w : reordered u v -> reordered v w -> reordered u w
| reordered_here ea eb :
    Permutation ea eb -> reordered (JObject ea) (JObject eb)
| reordered_item pre x y post :
    reordered x y ->
    reordered (JArray (pre ++ x :: post)) (JArray (pre ++ y :: post))
| reordered_member pre k x y post :
    reordered x y ->
    reordered (JObject (pre ++ (k, x) :: post))
              (JObject (pre ++ (k, y) :: post)).

Lemma sum_over_app {A} (f : A -> nat) l l' :
  sum_over f (l ++ l') = sum_over f l + sum_over f l'.
Proof. induction l; simpl; lia. Qed.

Lemma sum_over_perm {A} (f : A -> nat) l l' :
  Permutation l l' -> sum_over f l = sum_over f l'.
Proof. induction 1; simpl; lia. Qed.

Lemma max_over_app {A} (f : A -> nat) d l l' :
  max_over f d (l ++ l') = Nat.max (max_over f 0 l) (max_over f d l').
Proof. induction l; simpl; lia. Qed.

Lemma max_over_perm {A} (f : A -> nat) d l l' :
  Permutation l l' -> max_over f d l = max_over f d l'.
Proof. induction 1; simpl; lia. Qed.

(** The five reference counts of [v] at depth [d] and those of [w]
    agree. *)
Definition same_counts (v w : value) : Prop :=
  keyCount v = keyCount w /\ arrayCount v = arrayCount w /\
  objectCount v = objectCount w /\
  scalarValueCount v = scalarValueCount w /\
  forall d, maxDepth d v = maxDepth d w.

Lemma reordered_same_counts v w : reordered v w -> same_counts v w.
Proof.
  unfold same_counts.
  induction 1 as [v | u v w _ IH1 _ IH2 | ea eb Hp | pre x y post _ IH
                 | pre k x y post _ IH].
  - repeat split.
  - destruct IH1 as (? & ? & ? & ? & Hd1), IH2 as (? & ? & ? & ? & Hd2).
    repeat split; try congruence; intro d; now rewrite Hd1.
  - cbn [keyCount arrayCount objectCount scalarValueCount maxDepth].
    rewrite (Permutation_length Hp).
    rewrite !(sum_over_perm _ _ _ Hp).
    repeat split. intro d. apply (max_over_perm _ _ _ _ Hp).
  - destruct IH as (Hk & Ha & Ho & Hs & Hd).
    cbn [keyCount arrayCount objectCount scalarValueCount maxDepth].
    rewrite !sum_over_app. cbn [sum_over fold_right].
    rewrite Hk, Ha, Ho, Hs. repeat split.
    intro d. rewrite !max_over_app. cbn [max_over fold_right].
    now rewrite Hd.
  - destruct IH as (Hk & Ha & Ho & Hs & Hd).
    cbn [keyCount arrayCount objectCount scalarValueCount maxDepth].
    rewrite !length_app, !sum_over_app. cbn [sum_over fold_right length snd].
    rewrite Hk, Ha, Ho, Hs. repeat split.
    intro d. rewrite !max_over_app. cbn [max_over fold_right snd].
    now rewrite Hd.
Qed.

(** The statistics do not depend on the order of the members: two
    trees that differ only in the order in which objects, at any depth,
    list their members have the same five counters. *)
Theorem getJSONStats_key_order (v w : value) :
  reordered v w -> getJSONStats v = getJSONStats w.
Proof.
  intro H. apply reordered_same_counts in H.
  destruct H as (Hk & Ha & Ho & Hs & Hd).
  unfold getJSONStats. rewrite !traverse_adds. unfold add_counts.
  now rewrite Hk, Ha, Ho, Hs, Hd.
Qed.

Lemma getJSONStats_key_order_witness :
  reordered (JArray [JObject [("a", JNull); ("b", JArray [])]])
            (JArray [JObject [("b", JArray []); ("a", JNull)]]) /\
  getJSONStats (JArray [JObject [("a", JNull); ("b", JArray [])]]) =
  getJSONStats (JArray [JObject [("b", JArray []); ("a", JNull)]]).
Proof.
  assert (H : reordered (JArray [JObject [("a", JNull); ("b", JArray [])]])
                (JArray [JObject [("b", JArray []); ("a", JNull)]])).
  { apply (reordered_item [] _ _ []). apply reordered_here. apply perm_swap. }
  split; [exact H | apply (getJSONStats_key_order _ _ H)].
Defined.

Lemma depth_bound v : forall d,
  maxDepth d v <= d + arrayCount v + objectCount v.
Proof.
  induction v as [| b | n | s | items IH | entries IH] using value_ind;
    intro d; cbn [maxDepth arrayCount objectCount]; try lia.
  - induction IH as [| x items Hx _ IHl]; cbn [max_over sum_over fold_right];
      [lia|].
    specialize (Hx (S d)). unfold max_over, sum_over in IHl. lia.
  - induction IH as [| x entries Hx _ IHl]; cbn [max_over sum_over fold_right];
      [lia|].
    specialize (Hx (S d)). unfold max_over, sum_over in IHl. lia.
Qed.

Lemma key_bound v :
  keyCount v + 1 <= arrayCount v + objectCount v + scalarValueCount v.
Proof.
  induction v as [| b | n | s | items IH | entries IH] using value_ind;
    cbn [keyCount arrayCount objectCount scalarValueCount]; try lia.
  - induction IH as [| x items Hx _ IHl]; cbn [sum_over fold_right]; [lia|].
    unfold sum_over in IHl. lia.
  - induction IH as [| x entries Hx _ IHl];
      cbn [sum_over fold_right length]; [lia|].
    unfold sum_over in IHl. lia.
Qed.

(** The counters bound each other: the depth is at most the number of
    arrays and objects, and there are fewer keys than counted nodes
    (arrays, objects and scalar values together), since every key
    names a node other than the root. *)
Theorem getJSONStats_bounds (v : value) :
  depth (getJSONStats v) <= arrays (getJSONStats v) + objects (getJSONStats v)
  /\ keys (getJSONStats v) <
     arrays (getJSONStats v) + objects (getJSONStats v)
     + values (getJSONStats v).
Proof.
  unfold getJSONStats. rewrite traverse_adds. unfold add_counts.
  cbn [keys depth arrays objects values Nat.add].
  pose proof (depth_bound v 0). pose proof (key_bound v). lia.
Qed.

End StatsLaws.

(** ** [buildTreeHTML]: how many identifiers one rendering draws *)

Module TreeViewLaws.

Import TreeView.

Section WithHost.

Variable Number_toString : spec_float -> string.
Variable random_suffix : nat -> string.

(** The number of arrays and objects of [v], empty ones included. *)
Definition containers (v : value) : nat :=
  Stats.arrays (Stats.getJSONStats v) + Stats.objects (Stats.getJSONStats v).

Lemma containers_counts v :
  containers v = Stats.arrayCount v + Stats.objectCount v.
Proof.
  unfold containers, Stats.getJSONStats. rewrite Stats.traverse_adds.
  reflexivity.
Qed.

Definition draws (v : value) : Prop :=
  forall path isLast rng,
    snd (buildTreeHTML Number_toString random_suffix v path isLast rng) =
    rng + (Stats.arrayCount v + Stats.objectCount v).

Lemma draws_items (path : string) (count : nat) items :
  Forall draws items ->
  forall idx html rng,
  snd ((fix each (l : list value) (idx : nat) (html : string) (rng : nat)
          : string * nat :=
          match l with
          | [] => (html, rng)
          | value :: l' =>
              let key := nat_to_string idx in
              let childPath := path ++ "[" ++ key ++ "]" in
              let comma := comma_span idx count in
              let html := html ++ "<div class=" ++ dq "tree-line" ++ ">" in
              let html := html ++ key_span childPath true key in
              let '(sub, rng) :=
                buildTreeHTML Number_toString random_suffix value childPath (Nat.eqb idx (count - 1)) rng in
              let html := html ++ sub in
              let html := html ++ comma in
              let html := html ++ "</div>" in
              each l' (S idx) html rng
          end) items idx html rng) =
  rng + (Stats.sum_over Stats.arrayCount items
         + Stats.sum_over Stats.objectCount items).
Proof.
  induction 1 as [| x items Hx _ IH]; intros idx html rng.
  - simpl. lia.
  - cbv zeta.
    specialize (Hx (path ++ "[" ++ nat_to_string idx ++ "]")
                   (Nat.eqb idx (count - 1)) rng).
    destruct (buildTreeHTML Number_toString random_suffix x (path ++ "[" ++ nat_to_string idx ++ "]")
                    (Nat.eqb idx (count - 1)) rng) as [sub rng'].
    cbn [snd] in Hx. rewrite IH, Hx.
    cbn [Stats.sum_over fold_right]. unfold Stats.sum_over. lia.
Qed.

Lemma draws_entries (path : string) (count : nat) entries :
  Forall (fun e => draws (snd e)) entries ->
  forall idx html rng,
  snd ((fix each (l : list (string * value)) (idx : nat) (html : string)
          (rng : nat) : string * nat :=
          match l with
          | [] => (html, rng)
          | (key, value) :: l' =>
              let childPath := path ++ "." ++ key in
              let comma := comma_span idx count in
              let html := html ++ "<div class=" ++ dq "tree-line" ++ ">" in
              let html := html ++ key_span childPath false key in
              let '(sub, rng) :=
                buildTreeHTML Number_toString random_suffix value childPath (Nat.eqb idx (count - 1)) rng in
              let html := html ++ sub in
              let html := html ++ comma in
              let html := html ++ "</div>" in
              each l' (S idx) html rng
          end) entries idx html rng) =
  rng + (Stats.sum_over (fun e => Stats.arrayCount (snd e)) entries
         + Stats.sum_over (fun e => Stats.objectCount (snd e)) entries).
Proof.
  induction 1 as [| [k x] entries Hx _ IH]; intros idx html rng.
  - simpl. lia.
  - cbv zeta. cbn [snd] in Hx.
    specialize (Hx (path ++ "." ++ k) (Nat.eqb idx (count - 1)) rng).
    destruct (buildTreeHTML Number_toString random_suffix x (path ++ "." ++ k) (Nat.eqb idx (count - 1)) rng)
      as [sub rng'].
    cbn [snd] in Hx. rewrite IH, Hx.
    cbn [Stats.sum_over fold_right snd]. unfold Stats.sum_over. lia.
Qed.

Lemma build_draws v : draws v.
Proof.
  induction v as [| b | n | s | items IH | entries IH] using value_ind;
    intros path isLast rng;
    try (cbn [buildTreeHTML snd Stats.arrayCount Stats.objectCount]; lia).
  - cbn [buildTreeHTML Stats.arrayCount Stats.objectCount].
    destruct items as [| x items]; [cbn; lia|].
    cbn [length Nat.eqb].
    pose proof (draws_items path (S (length items)) (x :: items) IH 0
                  (open_node true (S (length items))
                             ("node-" ++ random_suffix rng)) (S rng)) as H.
    match goal with
    | |- snd (let '(html, rng) := ?t in _) = _ =>
        change (snd t = S rng
                + (Stats.sum_over Stats.arrayCount (x :: items)
                   + Stats.sum_over Stats.objectCount (x :: items))) in H;
        destruct t as [html rng']
    end.
    cbn [snd] in *. lia.
  - cbn [buildTreeHTML Stats.arrayCount Stats.objectCount].
    destruct entries as [| e entries]; [cbn; lia|].
    cbn [length Nat.eqb].
    pose proof (draws_entries path (S (length entries)) (e :: entries) IH 0
                  (open_node false (S (length entries))
                             ("node-" ++ random_suffix rng)) (S rng)) as H.
    match goal with
    | |- snd (let '(html, rng) := ?t in _) = _ =>
        change (snd t = S rng
                + (Stats.sum_over (fun e => Stats.arrayCount (snd e))
                                  (e :: entries)
                   + Stats.sum_over (fun e => Stats.objectCount (snd e))
                                    (e :: entries))) in H;
        destruct t as [html rng']
    end.
    cbn [snd] in *. lia.
Qed.

(** One rendering calls [Math.random] once for every array and every
    object of the tree, empty ones included, and never for a scalar:
    the number of identifiers drawn is the sum of the counters
    [arrays] and [objects] of [getJSONStats]. *)
Theorem buildTreeHTML_draws_per_container
  (v : value) (path : string) (isLast : bool) (rng : nat) :
  snd (buildTreeHTML Number_toString random_suffix v path isLast rng) = rng + containers v.
Proof. rewrite containers_counts. apply build_draws. Qed.

End WithHost.

End TreeViewLaws.

(** ** Escaping loses nothing *)

Module EscapeLaws.

(** An entity reference of the four at the start of [s], or else
    its first code unit: what a reader of markup makes of it. *)
Definition read_one (s : string) : option (ascii * string) :=
  match strip_prefix "&amp;" s with
  | Some rest => Some (amp, rest)
  | None =>
  match strip_prefix "&lt;" s with
  | Some rest => Some (lt, rest)
  | None =>
  match strip_prefix "&gt;" s with
  | Some rest => Some (gt, rest)
  | None =>
  match strip_prefix "&quot;" s with
  | Some rest => Some (quot, rest)
  | None =>
  match s with
  | String c rest => Some (c, rest)
  | EmptyString => None
  end end end end end.

(** The text that escaped text stands for. *)
Fixpoint unescape (fuel : nat) (s : string) : string :=
  match fuel with
  | O => ""
  | S fuel =>
      match read_one s with
      | Some (c, rest) => String c (unescape fuel rest)
      | None => ""
      end
  end.

Lemma read_one_escaped c rest :
  read_one (escape_attr_char c ++ rest) = Some (c, rest).
Proof.
  unfold escape_attr_char, escape_text_char.
  destruct (Ascii.eqb_spec c quot) as [-> | Hq]; [reflexivity|].
  destruct (Ascii.eqb_spec c amp) as [-> | Ha]; [reflexivity|].
  destruct (Ascii.eqb_spec c lt) as [-> | Hl]; [reflexivity|].
  destruct (Ascii.eqb_spec c gt) as [-> | Hg]; [reflexivity|].
  unfold read_one. cbn [append strip_prefix].
  assert (E : Ascii.eqb "&" c = false).
  { destruct (Ascii.eqb_spec "&"%char c) as [<- |]; [| reflexivity].
    now contradiction Ha. }
  now rewrite E.
Qed.

Lemma read_one_escaped_text c rest :
  read_one (escape_text_char c ++ rest) = Some (c, rest).
Proof.
  destruct (Ascii.eqb_spec c quot) as [-> | Hq]; [reflexivity|].
  pose proof (read_one_escaped c rest) as H. unfold escape_attr_char in H.
  destruct (Ascii.eqb_spec c quot); [contradiction | exact H].
Qed.

Lemma unescape_expand f s :
  (forall c rest, read_one (f c ++ rest) = Some (c, rest)) ->
  forall fuel, String.length s <= fuel -> unescape fuel (expand f s) = s.
Proof.
  intro Hf. induction s as [| c s IH]; intros fuel Hlen.
  - destruct fuel; reflexivity.
  - destruct fuel as [| fuel]; [simpl in Hlen; lia|].
    cbn [expand unescape]. rewrite Hf, IH; [reflexivity|].
    simpl in Hlen. lia.
Qed.

(** Reading the entity references back gives the text that was
    escaped, for the three replacements of [jsonToXml] and
    [syntaxHighlight] and for the four of [buildTreeHTML]; hence two
    different texts are never escaped to the same text. *)
Theorem escape_round_trip (s t : string) :
  unescape (String.length s) (escape_text s) = s /\
  unescape (String.length s) (escape_attr s) = s /\
  (escape_text s = escape_text t -> s = t) /\
  (escape_attr s = escape_attr t -> s = t).
Proof.
  assert (Ht : forall u fuel, String.length u <= fuel ->
                unescape fuel (escape_text u) = u).
  { intros u fuel Hu. rewrite escape_text_expand.
    now apply unescape_expand; [apply read_one_escaped_text|]. }
  assert (Ha : forall u fuel, String.length u <= fuel ->
                unescape fuel (escape_attr u) = u).
  { intros u fuel Hu. rewrite escape_attr_expand.
    now apply unescape_expand; [apply read_one_escaped|]. }
  split; [apply Ht; lia|]. split; [apply Ha; lia|]. split; intro E.
  - pose proof (Ht s (String.length s + String.length t)) as Hs.
    pose proof (Ht t (String.length s + String.length t)) as Ht'.
    rewrite E in Hs. specialize (Hs ltac:(lia)). specialize (Ht' ltac:(lia)).
    congruence.
  - pose proof (Ha s (String.length s + String.length t)) as Hs.
    pose proof (Ha t (String.length s + String.length t)) as Ha'.
    rewrite E in Hs. specialize (Hs ltac:(lia)). specialize (Ha' ltac:(lia)).
    congruence.
Qed.

End EscapeLaws.

(** ** [jsonToXml]: what the output does not tell apart *)

Module XmlLaws.

Import Xml.

Section WithNumberToString.

Variable Number_toString : spec_float -> string.

Lemma concat_strings_app l l' :
  concat_strings (l ++ l') = concat_strings l ++ concat_strings l'.
Proof.
  induction l as [| x l IH]; simpl; [reflexivity|].
  now rewrite IH, append_assoc.
Qed.

Lemma convert_list items tag level :
  convert Number_toString (JArray items) tag level =
  concat_strings (map (fun item => convert Number_toString item tag level) items).
Proof. reflexivity. Qed.

Lemma convert_splice pre inner post tag level :
  convert Number_toString (JArray (pre ++ JArray inner :: post)) tag level =
  convert Number_toString (JArray (pre ++ inner ++ post)) tag level.
Proof.
  rewrite !convert_list, !map_app, !concat_strings_app.
  cbn [map concat_strings fold_right].
  fold (concat_strings
          (map (fun item => convert Number_toString item tag level) post)).
  rewrite convert_list. reflexivity.
Qed.

(** The output does not show how lists are nested: a list that stands
    directly in a list is rendered as if its elements stood in the
    outer list (an empty one leaves no trace), at the root as well as
    below it.  Nor does it tell [null] from the empty string. *)
Theorem jsonToXml_splices_nested_lists
  (pre inner post : list value) (tag rootName : string) (level : nat) :
  convert Number_toString (JArray (pre ++ JArray inner :: post)) tag level =
    convert Number_toString (JArray (pre ++ inner ++ post)) tag level /\
  jsonToXml Number_toString (JArray (pre ++ JArray inner :: post)) rootName =
    jsonToXml Number_toString (JArray (pre ++ inner ++ post)) rootName /\
  convert Number_toString JNull tag level =
    convert Number_toString (JString "") tag level.
Proof.
  split; [apply convert_splice|]. split; [| reflexivity].
  unfold jsonToXml.
  pose proof (convert_splice pre inner post "item" 1) as H.
  rewrite !convert_list in H. now rewrite H.
Qed.

End WithNumberToString.

End XmlLaws.

(** ** [jsonToTypeScript]: values without objects, lists of one type,
    and the name of the root *)

Module TypeScriptLaws.

Import TypeScript.

Section WithToUpperCase.

Variable toUpperCase : ascii -> string.

(** No object occurs in [v]. *)
Fixpoint object_free (v : value) : bool :=
  match v with
  | JObject _ => false
  | JArray items => forallb object_free items
  | _ => true
  end.

Lemma map_types_object_free name items st :
  Forall (fun x => forall name st, snd (getType toUpperCase x name st) = st)
         items ->
  map_types (getType toUpperCase) name items st =
  (map (fun x => fst (getType toUpperCase x name st)) items, st).
Proof.
  induction 1 as [| x items Hx _ IH]; cbn [map_types map]; [reflexivity|].
  specialize (Hx name st). destruct (getType toUpperCase x name st) as [t st1].
  cbn [snd fst] in *. subst st1. now rewrite IH.
Qed.

Lemma getType_object_free (v : value) (name : string) (st : state) :
  object_free v = true -> snd (getType toUpperCase v name st) = st.
Proof.
  revert name st.
  induction v as [| b | n | s | items IH | entries IH] using value_ind;
    intros name st Hv; try reflexivity; [| discriminate Hv].
  cbn [getType]. destruct (Nat.eqb (length items) 0); [reflexivity|].
  rewrite map_types_object_free.
  - destruct (Nat.eqb (length (new_Set _)) 1); reflexivity.
  - cbn [object_free] in Hv. rewrite forallb_forall in Hv.
    rewrite Forall_forall in *. intros x Hx name' st'. now apply IH, Hv.
Qed.

(** A value that holds no object generates nothing: [getType] leaves
    [interfaces] and [seen] as they are. *)
Theorem getType_object_free_generates_nothing
  (v : value) (name : string) (st : state) :
  object_free v = true -> snd (getType toUpperCase v name st) = st.
Proof. exact (getType_object_free v name st). Qed.

Lemma set_from_repeated t seen l :
  mem t seen = true -> (forall x, In x l -> x = t) -> set_from seen l = [].
Proof.
  intros Ht. induction l as [| x l IH]; intro H; simpl; [reflexivity|].
  rewrite (H x (or_introl eq_refl)), Ht. apply IH. intros; apply H; now right.
Qed.

(** A non-empty list whose elements hold no object and all get the
    type [t] gets the type [t[]]. *)
Theorem getType_homogeneous_list
  (items : list value) (name : string) (st : state) (t : string) :
  items <> [] ->
  (forall x, In x items ->
     object_free x = true /\
     fst (getType toUpperCase x (strip_s name) st) = t) ->
  getType toUpperCase (JArray items) name st = (t ++ "[]", st).
Proof.
  intros Hne Hitems. cbn [getType].
  destruct items as [| x items]; [contradiction|]. cbn [length Nat.eqb].
  rewrite map_types_object_free.
  2:{ apply Forall_forall. intros y Hy name' st'.
      apply getType_object_free. now apply Hitems. }
  cbn [map]. unfold new_Set. cbn [set_from mem existsb].
  rewrite (proj2 (Hitems x (or_introl eq_refl))).
  rewrite (set_from_repeated t).
  - reflexivity.
  - simpl. now rewrite String.eqb_refl.
  - intros y Hy. apply in_map_iff in Hy. destruct Hy as (z & <- & Hz).
    apply Hitems. now right.
Qed.

Lemma each_entry_app entries1 entries2 code st :
  each_entry (getType toUpperCase) (entries1 ++ entries2) code st =
  each_entry (getType toUpperCase) entries2
    (fst (each_entry (getType toUpperCase) entries1 code st))
    (snd (each_entry (getType toUpperCase) entries1 code st)).
Proof.
  revert code st. induction entries1 as [| e entries1 IH]; intros code st.
  - reflexivity.
  - cbn [app each_entry].
    destruct (getType toUpperCase (snd e) (fst e) st) as [t st1]. apply IH.
Qed.

Lemma all_grow (entries : list (string * value)) :
  Forall (fun e => grows toUpperCase (snd e)) entries.
Proof. apply Forall_forall. intros e _. apply (getType_grows toUpperCase). Qed.

Lemma block_of_seen_name st st' names blocks name :
  extends st st' names blocks -> In name names ->
  exists b, In b blocks /\ block_for name b.
Proof.
  intros (_ & _ & Hb) Hin.
  induction Hb as [| n b names blocks Hnb _ IH]; [contradiction|].
  destruct Hin as [-> | Hin].
  - exists b. split; [now left | assumption].
  - destruct (IH Hin) as (b' & Hb' & Hblock). exists b'. split; [now right | assumption].
Qed.

(** The name of the root is not registered in [seen].  When a member
    of the root Object is itself an Object and its key capitalizes to
    the root name, the output holds two blocks of that name: the block
    of the root, which comes first, and a block generated for a
    member. *)
Theorem jsonToTypeScript_root_name_reused
  (pre post inner : list (string * value)) (key interfaceName : string) :
  capitalize toUpperCase key = interfaceName ->
  exists root other rest,
    jsonToTypeScript toUpperCase (JObject (pre ++ (key, JObject inner) :: post))
                     interfaceName =
      join (nl ++ nl) (root :: rest) /\
    In other rest /\
    block_for interfaceName root /\ block_for interfaceName other.
Proof.
  intro Hname. cbn [jsonToTypeScript].
  unfold generateInterface, generateInterface_with.
  set (code0 := "interface " ++ interfaceName ++ " {" ++ nl).
  rewrite each_entry_app.
  assert (Hinit : NoDup (seen initial)) by constructor.
  destruct (each_entry_grows toUpperCase pre (all_grow pre) code0 initial Hinit)
    as (body1 & names1 & blocks1 & Hc1 & He1 & Hd1).
  destruct (each_entry (getType toUpperCase) pre code0 initial) as [code1 st1].
  cbn [fst snd] in *. subst code1.
  cbn [each_entry fst snd].
  assert (Hmember : exists other st2 t,
            getType toUpperCase (JObject inner) key st1 = (t, st2) /\
            NoDup (seen st2) /\ In other (interfaces st2) /\
            block_for interfaceName other).
  { cbn [getType]. rewrite Hname.
    destruct (mem interfaceName (seen st1)) eqn:Eseen; cbn [negb].
    - destruct He1 as (Hi & (new & Hs & Hp) & Hb).
      assert (Hin : In interfaceName names1).
      { apply (Permutation_in _ (Permutation_sym Hp)).
        apply mem_In in Eseen. rewrite Hs in Eseen.
        cbn [initial seen] in Eseen. now rewrite app_nil_r in Eseen. }
      destruct (block_of_seen_name initial st1 names1 blocks1 interfaceName)
        as (b & Hb1 & Hblock); [repeat split; eauto | assumption |].
      exists b, st1, interfaceName. repeat split; try assumption.
      rewrite Hi. cbn [initial interfaces app]. assumption.
    - assert (Hst : NoDup (seen (seen_set interfaceName st1))).
      { cbn [seen_set seen]. constructor; [| assumption].
        intro Hin. apply mem_In in Hin. congruence. }
      destruct (generateInterface_grows toUpperCase inner (all_grow inner)
                  interfaceName
                  _ Hst)
        as (names & nested & code & Hi & Hblock & _ & _ & Hd).
      exists code. eexists. eexists. split; [reflexivity|].
      fold (generateInterface toUpperCase). repeat split; try assumption.
      rewrite Hi. apply in_or_app. right. apply in_or_app. right. now left. }
  destruct Hmember as (other & st2 & t & Eg & Hd2 & Hother & Hblock).
  rewrite Eg.
  match goal with
  | |- context [each_entry (getType toUpperCase) post ?c st2] =>
      destruct (each_entry_grows toUpperCase post (all_grow post) c st2 Hd2)
        as (body3 & names3 & blocks3 & Hc3 & (Hi3 & _) & _);
      destruct (each_entry (getType toUpperCase) post c st2) as [code3 st3]
  end.
  cbn [fst snd] in *. subst code3.
  unfold push_interface. cbn [interfaces].
  rewrite rev_app_distr.
  match goal with
  | |- context [rev [?c]] =>
      exists c, other, (rev (interfaces st3)); change (rev [c]) with [c]
  end.
  split; [reflexivity|]. split.
  - apply -> in_rev. rewrite Hi3. apply in_or_app. now left.
  - split; [| assumption].
    match goal with
    | |- block_for _ ((((_ ++ _) ++ ?line) ++ _) ++ _) =>
        exists (body1 ++ line ++ body3)
    end.
    unfold code0. rewrite !append_assoc. reflexivity.
Qed.

End WithToUpperCase.

Lemma getType_object_free_generates_nothing_witness :
  object_free (JArray [JArray [JNull]; JString "s"]) = true /\
  snd (getType toUpperCase_latin1 (JArray [JArray [JNull]; JString "s"]) "xs"
               (mkState ["interface A {}"] ["A"])) =
  mkState ["interface A {}"] ["A"].
Proof.
  split; [reflexivity|].
  apply (getType_object_free_generates_nothing toUpperCase_latin1). reflexivity.
Defined.

Lemma getType_homogeneous_list_witness :
  [JArray [JBool true]; JArray [JBool false; JBool true]] <> [] /\
  getType toUpperCase_latin1
          (JArray [JArray [JBool true]; JArray [JBool false; JBool true]])
          "rows" initial =
  ("boolean[][]", initial).
Proof.
  split; [discriminate|].
  apply (getType_homogeneous_list toUpperCase_latin1 _ "rows" initial
                                  "boolean[]");
    [discriminate|].
  intros x [<- | [<- | []]]; split; reflexivity.
Defined.

Lemma jsonToTypeScript_root_name_reused_witness :
  capitalize toUpperCase_latin1 "root" = "Root" /\
  exists root other rest,
    jsonToTypeScript toUpperCase_latin1
                     (JObject ([] ++ ("root", JObject []) :: [])) "Root" =
      join (nl ++ nl) (root :: rest) /\
    In other rest /\ block_for "Root" root /\ block_for "Root" other.
Proof.
  split; [reflexivity|].
  apply (jsonToTypeScript_root_name_reused toUpperCase_latin1 [] [] []
                                           "root" "Root").
  reflexivity.
Defined.

End TypeScriptLaws.

(** ** [parseJSON]: the reported position stays inside the text *)

Module ParseLaws.

Import Parse.

Lemma substring_prefix n : forall s,
  exists rest, s = substring 0 n s ++ rest.
Proof.
  induction n as [| n IH]; intros [| c s]; simpl; try (eexists; reflexivity).
  destruct (IH s) as (rest & H). exists rest. now rewrite <- H.
Qed.

Lemma substring_all n : forall s,
  String.length s <= n -> substring 0 n s = s.
Proof.
  induction n as [| n IH]; intros [| c s] H; simpl in *; try reflexivity;
    try lia.
  rewrite IH; [reflexivity | lia].
Qed.

Lemma split_lines_app_length a b :
  length (split_lines (a ++ b)) =
  length (split_lines a) + length (split_lines b) - 1.
Proof.
  induction a as [| c a IH]; cbn [append split_lines].
  - simpl. lia.
  - pose proof (split_lines_length a) as Ha.
    pose proof (split_lines_length (a ++ b)) as Hab.
    destruct (Ascii.eqb c newline); cbn [length]; [lia|].
    destruct (split_lines (a ++ b)), (split_lines a); simpl in *; lia.
Qed.

Lemma last_line_length s :
  String.length (last (split_lines s) "") <= String.length s.
Proof.
  induction s as [| c s IH]; cbn [split_lines]; [simpl; lia|].
  pose proof (split_lines_length s) as Hs.
  destruct (Ascii.eqb c newline).
  - destruct (split_lines s) as [| first rest] eqn:E; [simpl in Hs; lia|].
    change (last ("" :: first :: rest) "") with (last (first :: rest) "").
    cbn [String.length]. lia.
  - destruct (split_lines s) as [| first rest] eqn:E; [simpl in Hs; lia|].
    destruct rest as [| second rest]; [simpl in *; lia|].
    change (last (String c first :: second :: rest) "")
      with (last (first :: second :: rest) "").
    cbn [String.length]. lia.
Qed.

Section WithJSONParse.

Variable JSON_parse : string -> value + string.

(** When the message names a position, the reported line lies between
    1 and the number of lines of the text and the reported column
    between 1 and the length of the text plus 1, whatever the number
    in the message is; a position at or past the end of the text is
    reported as the place just behind the last code unit. *)
Theorem parseJSON_position_in_text (text e_message digits : string) :
  JSON_parse text = inr e_message ->
  match_position e_message = Some digits ->
  exists l c,
    error (parseJSON JSON_parse text) =
      Some (mkError e_message (Some l) (Some c)) /\
    1 <= l <= length (split_lines text) /\
    1 <= c <= String.length text + 1 /\
    (String.length text <= parseInt digits ->
     l = length (split_lines text) /\
     c = String.length (last (split_lines text) "") + 1).
Proof.
  intros Hfail Hpos. unfold parseJSON. rewrite Hfail, Hpos.
  eexists _, _. split; [reflexivity|].
  destruct (substring_prefix (parseInt digits) text) as (rest & Htext).
  set (prefix := substring 0 (parseInt digits) text) in *.
  pose proof (split_lines_length prefix) as H1.
  pose proof (split_lines_length rest) as H2.
  pose proof (last_line_length prefix) as H3.
  assert (Hlines : length (split_lines text) =
                   length (split_lines prefix) + length (split_lines rest) - 1)
    by (rewrite Htext at 1; apply split_lines_app_length).
  assert (Hlen : String.length text =
                 String.length prefix + String.length rest).
  { rewrite Htext at 1. clear. induction prefix; simpl; congruence. }
  split; [lia|]. split; [lia|].
  intro Hend. subst prefix. rewrite (substring_all _ _ Hend). auto.
Qed.

End WithJSONParse.

Lemma parseJSON_position_in_text_witness :
  failing_parse "{}" = inr "Unexpected token } in JSON at position 4" /\
  match_position "Unexpected token } in JSON at position 4" = Some "4" /\
  error (parseJSON failing_parse "{}") =
    Some (mkError "Unexpected token } in JSON at position 4"
                  (Some 1) (Some 3)).
Proof.
  split; [reflexivity|]. split; [reflexivity|].
  destruct (parseJSON_position_in_text failing_parse "{}"
              "Unexpected token } in JSON at position 4" "4"
              eq_refl eq_refl) as (l & c & Herr & _ & _ & Hend).
  destruct (Hend ltac:(apply Nat.leb_le; reflexivity)) as [-> ->]. exact Herr.
Defined.

End ParseLaws.

(** ** Theme ([initTheme], [toggleTheme], [updateThemeIcon]) *)

Module Theme.

(** What the three functions read and write: the attribute
    [data-theme] of the document element ([None] when absent), the item
    [json-tools-theme] of [localStorage] ([None] when absent), and the
    text of the first element of class [theme-toggle] ([None] when the
    page has no such element). *)
Record page : Type := mkPage {
  data_theme : option string;
  stored : option string;
  button : option string
}.

Definition sun : string := "☀️".
Definition moon : string := "🌙".

Definition option_eqb (x : option string) (s : string) : bool :=
  match x with Some y => String.eqb y s | None => false end.

Definition updateThemeIcon (pg : page) : page :=
  match button pg with
  | None => pg
  | Some _ =>
      let isDark := negb (option_eqb (data_theme pg) "light") in
      mkPage (data_theme pg) (stored pg) (Some (if isDark then sun else moon))
  end.

(** [localStorage.getItem('json-tools-theme') || 'dark'] *)
Definition saved_theme (pg : page) : string :=
  match stored pg with
  | None => "dark"
  | Some EmptyString => "dark"
  | Some s => s
  end.

Definition initTheme (pg : page) : page :=
  let saved := saved_theme pg in
  updateThemeIcon (mkPage (Some saved) (stored pg) (button pg)).

Definition toggleTheme (pg : page) : page :=
  let current := data_theme pg in
  let next := if option_eqb current "dark" then "light" else "dark" in
  let pg := mkPage (Some next) (stored pg) (button pg) in
  let pg := mkPage (data_theme pg) (Some next) (button pg) in
  updateThemeIcon pg.

(** The icon agrees with the theme: the sun unless the theme is
    [light]. *)
Definition icon_agrees (pg : page) : Prop :=
  match button pg with
  | None => True
  | Some icon =>
      icon = if option_eqb (data_theme pg) "light" then moon else sun
  end.

Lemma toggleTheme_cases (pg : page) :
  (data_theme (toggleTheme pg) = Some "dark" \/
   data_theme (toggleTheme pg) = Some "light") /\
  stored (toggleTheme pg) = data_theme (toggleTheme pg) /\
  icon_agrees (toggleTheme pg) /\
  (data_theme pg = Some "dark" -> data_theme (toggleTheme pg) = Some "light") /\
  (data_theme pg <> Some "dark" -> data_theme (toggleTheme pg) = Some "dark") /\
  data_theme (toggleTheme (toggleTheme (toggleTheme pg))) =
  data_theme (toggleTheme pg).
Proof.
  assert (Hcases : option_eqb (data_theme pg) "dark" = true
                   /\ data_theme pg = Some "dark"
                   \/ option_eqb (data_theme pg) "dark" = false
                      /\ data_theme pg <> Some "dark").
  { destruct (data_theme pg) as [s |]; simpl; [| right; split; congruence].
    destruct (String.eqb_spec s "dark") as [-> | Hne]; [left | right];
      split; congruence. }
  unfold toggleTheme, updateThemeIcon, icon_agrees.
  destruct pg as [theme st [icon |]]; cbn [data_theme stored button] in *;
    destruct Hcases as [[E H] | [E H]]; rewrite E;
    cbn [data_theme stored button option_eqb String.eqb Ascii.eqb Bool.eqb
         negb andb];
    (repeat split; try tauto; try congruence; try (now right); try (now left)).
Qed.

(** [toggleTheme] always leaves the theme at [dark] or [light], stores
    the theme it sets, and keeps the icon in step.  From [dark] and
    from [light] it goes to the other theme, so that two calls restore
    the theme; from any other state, the absent attribute included, it
    goes to [dark]. *)
Theorem toggleTheme_alternates (pg : page) :
  (data_theme (toggleTheme pg) = Some "dark" \/
   data_theme (toggleTheme pg) = Some "light") /\
  stored (toggleTheme pg) = data_theme (toggleTheme pg) /\
  icon_agrees (toggleTheme pg) /\
  (data_theme pg = Some "dark" -> data_theme (toggleTheme pg) = Some "light") /\
  (data_theme pg <> Some "dark" -> data_theme (toggleTheme pg) = Some "dark") /\
  data_theme (toggleTheme (toggleTheme (toggleTheme pg))) =
  data_theme (toggleTheme pg).
Proof. exact (toggleTheme_cases pg). Qed.

(** The choice survives a reload: on a page that finds in
    [localStorage] what [toggleTheme] stored, [initTheme] sets the
    theme that [toggleTheme] had set, whatever the attribute was
    before.  With nothing stored, or the empty string, the theme is
    [dark]. *)
Theorem initTheme_restores_toggled (pg reloaded : page) :
  (stored reloaded = stored (toggleTheme pg) ->
   data_theme (initTheme reloaded) = data_theme (toggleTheme pg) /\
   icon_agrees (initTheme reloaded)) /\
  (stored reloaded = None \/ stored reloaded = Some "" ->
   data_theme (initTheme reloaded) = Some "dark").
Proof.
  split.
  - intro Hst.
    destruct (toggleTheme_cases pg) as (Hth & Hsame & _).
    rewrite Hsame in Hst.
    unfold initTheme, updateThemeIcon, saved_theme, icon_agrees.
    destruct reloaded as [theme st [icon |]];
      cbn [data_theme stored button] in *; subst st;
      destruct Hth as [-> | ->]; cbn; auto.
  - unfold initTheme, updateThemeIcon, saved_theme.
    destruct reloaded as [theme st [icon |]];
      cbn [data_theme stored button]; intros [-> | ->]; reflexivity.
Qed.

End Theme.

(** ** Stepping through the search matches ([searchNext],
    [searchPrev]) *)

Module SearchIndex.

(** The two globals and what [_highlightCurrent] leaves in the
    document: the number of elements of [_searchMatches], the value of
    [_searchIndex], and the index of the match that carries the class
    [tree-highlight-current], if any. *)
Record search : Type := mkSearch {
  matches : nat;
  index : Z;
  current : option Z
}.

Definition _highlightCurrent (s : search) : search :=
  if (0 <? matches s)%nat && (0 <=? index s)%Z
     && (index s <? Z.of_nat (matches s))%Z
  then mkSearch (matches s) (index s) (Some (index s))
  else mkSearch (matches s) (index s) None.

(** The remainder [%] of JavaScript takes the sign of the dividend. *)
Definition searchNext (s : search) : search :=
  if Nat.eqb (matches s) 0 then s
  else
    _highlightCurrent
      (mkSearch (matches s)
                (Z.rem (index s + 1) (Z.of_nat (matches s))) (current s)).

Definition searchPrev (s : search) : search :=
  if Nat.eqb (matches s) 0 then s
  else
    _highlightCurrent
      (mkSearch (matches s)
                (Z.rem (index s - 1 + Z.of_nat (matches s))
                       (Z.of_nat (matches s))) (current s)).

(** The index points at a match and that match is the highlighted
    one. *)
Definition on_match (s : search) : Prop :=
  (0 <= index s < Z.of_nat (matches s))%Z /\ current s = Some (index s).

Lemma highlight_on_match n i c :
  (0 <= i < Z.of_nat n)%Z ->
  _highlightCurrent (mkSearch n i c) = mkSearch n i (Some i).
Proof.
  intro H. unfold _highlightCurrent. cbn [matches index].
  assert (E1 : (0 <? n)%nat = true) by (apply Nat.ltb_lt; lia).
  assert (E2 : (0 <=? i)%Z = true) by (apply Z.leb_le; lia).
  assert (E3 : (i <? Z.of_nat n)%Z = true) by (apply Z.ltb_lt; lia).
  now rewrite E1, E2, E3.
Qed.

Definition next_index (n i : Z) : Z :=
  if (i =? n - 1)%Z then 0%Z else (i + 1)%Z.

Definition prev_index (n i : Z) : Z :=
  if (i =? 0)%Z then (n - 1)%Z else (i - 1)%Z.

Lemma rem_next n i : (0 <= i < n)%Z -> Z.rem (i + 1) n = next_index n i.
Proof.
  intro H. unfold next_index. destruct (Z.eqb_spec i (n - 1)) as [-> | Hne].
  - replace (n - 1 + 1)%Z with n by lia. apply Z.rem_same. lia.
  - apply Z.rem_small. lia.
Qed.

Lemma rem_prev n i : (0 <= i < n)%Z -> Z.rem (i - 1 + n) n = prev_index n i.
Proof.
  intro H. unfold prev_index. destruct (Z.eqb_spec i 0) as [-> | Hne].
  - replace (0 - 1 + n)%Z with (n - 1)%Z by lia. apply Z.rem_small. lia.
  - rewrite Z.rem_mod_nonneg by lia.
    replace (i - 1 + n)%Z with (i - 1 + 1 * n)%Z by lia.
    rewrite Z.mod_add by lia. apply Z.mod_small. lia.
Qed.

Lemma searchNext_from_match n i c :
  (0 <= i < Z.of_nat n)%Z ->
  searchNext (mkSearch n i c) =
  mkSearch n (next_index (Z.of_nat n) i) (Some (next_index (Z.of_nat n) i)).
Proof.
  intro H. unfold searchNext. cbn [matches index current].
  assert (En : Nat.eqb n 0 = false) by (apply Nat.eqb_neq; lia).
  rewrite En, rem_next by assumption. apply highlight_on_match.
  unfold next_index. destruct (Z.eqb_spec i (Z.of_nat n - 1)); lia.
Qed.

Lemma searchPrev_from_match n i c :
  (0 <= i < Z.of_nat n)%Z ->
  searchPrev (mkSearch n i c) =
  mkSearch n (prev_index (Z.of_nat n) i) (Some (prev_index (Z.of_nat n) i)).
Proof.
  intro H. unfold searchPrev. cbn [matches index current].
  assert (En : Nat.eqb n 0 = false) by (apply Nat.eqb_neq; lia).
  rewrite En, rem_prev by assumption. apply highlight_on_match.
  unfold prev_index. destruct (Z.eqb_spec i 0); lia.
Qed.

(** With at least one match and the index on a match or at its initial
    value -1, both steps leave the index on a match, which they
    highlight.  From a match, [searchPrev] undoes [searchNext] and
    [searchNext] undoes [searchPrev], and the steps wrap around: the
    step after the last match is the first, the step before the first
    is the last. *)
Theorem search_steps_stay_on_matches (s : search) :
  (0 < matches s)%nat ->
  (-1 <= index s < Z.of_nat (matches s))%Z ->
  on_match (searchNext s) /\ on_match (searchPrev s) /\
  (on_match s ->
   searchPrev (searchNext s) = s /\ searchNext (searchPrev s) = s /\
   (index s = Z.of_nat (matches s) - 1 -> index (searchNext s) = 0)%Z /\
   (index s = 0 -> index (searchPrev s) = Z.of_nat (matches s) - 1)%Z).
Proof.
  destruct s as [n i c]. cbn [matches index current]. intros Hn Hi.
  assert (En : Nat.eqb n 0 = false) by (apply Nat.eqb_neq; lia).
  split; [| split].
  - destruct (Z.eq_dec i (-1)) as [-> | Hne].
    + unfold searchNext. cbn [matches index current]. rewrite En.
      rewrite Z.rem_0_l by lia. rewrite highlight_on_match by lia.
      split; [cbn [matches index]; lia | reflexivity].
    + rewrite searchNext_from_match by lia. unfold on_match, next_index.
      cbn [matches index current].
      destruct (Z.eqb_spec i (Z.of_nat n - 1)); split; try reflexivity; lia.
  - destruct (Z.eq_dec i (-1)) as [-> | Hne].
    + unfold searchPrev. cbn [matches index current]. rewrite En.
      assert (Hr : (0 <= Z.rem (-1 - 1 + Z.of_nat n) (Z.of_nat n)
                    < Z.of_nat n)%Z).
      { destruct (Z.eq_dec (Z.of_nat n) 1) as [E | E].
        - rewrite E. change (0 <= 0 < 1)%Z. lia.
        - rewrite Z.rem_small by lia. lia. }
      rewrite highlight_on_match by assumption.
      split; [cbn [matches index]; assumption | reflexivity].
    + rewrite searchPrev_from_match by lia. unfold on_match, prev_index.
      cbn [matches index current].
      destruct (Z.eqb_spec i 0); split; try reflexivity; lia.
  - intros [Hrange Hc]. cbn [index current matches] in Hrange, Hc. subst c.
    rewrite (searchNext_from_match n i) by assumption.
    rewrite (searchPrev_from_match n i) by assumption.
    rewrite searchPrev_from_match
      by (unfold next_index; destruct (Z.eqb_spec i (Z.of_nat n - 1)); lia).
    rewrite searchNext_from_match
      by (unfold prev_index; destruct (Z.eqb_spec i 0); lia).
    cbn [index].
    assert (E1 : prev_index (Z.of_nat n) (next_index (Z.of_nat n) i) = i).
    { unfold prev_index, next_index.
      destruct (Z.eqb_spec i (Z.of_nat n - 1)).
      - subst i. reflexivity.
      - destruct (Z.eqb_spec (i + 1) 0); lia. }
    assert (E2 : next_index (Z.of_nat n) (prev_index (Z.of_nat n) i) = i).
    { unfold prev_index, next_index.
      destruct (Z.eqb_spec i 0).
      - rewrite Z.eqb_refl. lia.
      - destruct (Z.eqb_spec (i - 1) (Z.of_nat n - 1)); lia. }
    rewrite E1, E2. repeat split.
    + intros ->. unfold next_index. now rewrite Z.eqb_refl.
    + intros ->. reflexivity.
Qed.

Lemma search_steps_stay_on_matches_witness :
  (0 < matches (mkSearch 3 (-1) None))%nat /\
  (-1 <= index (mkSearch 3 (-1) None) < 3)%Z /\
  on_match (searchNext (mkSearch 3 (-1) None)) /\
  on_match (searchPrev (mkSearch 3 (-1) None)).
Proof.
  assert (H1 : (0 < matches (mkSearch 3 (-1) None))%nat) by (simpl; lia).
  assert (H2 : (-1 <= index (mkSearch 3 (-1) None)
                < Z.of_nat (matches (mkSearch 3 (-1) None)))%Z)
    by (simpl; lia).
  destruct (search_steps_stay_on_matches (mkSearch 3 (-1) None) H1 H2)
    as (Hnext & Hprev & _).
  split; [exact H1|]. split; [exact H2|]. split; assumption.
Defined.

End SearchIndex.

(** ** The pattern that [searchTree] builds from the keyword *)

Module KeywordPattern.

Definition backslash : ascii := "092"%char.

(** The characters of the class that [searchTree] replaces: the dot,
    the star, the plus, the question mark, the caret, the dollar, the
    braces, the parentheses, the bar, the brackets and the backslash. *)
Definition special (c : ascii) : bool :=
  contains_char c ".*+?^${}()|[]" || Ascii.eqb c backslash.

(** The replacement: a backslash, then the character matched. *)
Definition escape_char (c : ascii) : string :=
  if special c then String backslash (String c "") else String c "".

(** The escaped keyword, around which [searchTree] puts one group. *)
Definition escape_keyword (keyword : string) : string :=
  expand escape_char keyword.

(** The text that a pattern matches literally, when the pattern is
    made only of characters that stand for themselves and of special
    characters behind a backslash.  A special character on its own, a
    backslash before any other character (a class, an assertion or a
    back reference) and a backslash at the end give [None]. *)
Fixpoint literal (p : string) : option string :=
  match p with
  | EmptyString => Some EmptyString
  | String c rest =>
      if Ascii.eqb c backslash then
        match rest with
        | EmptyString => None
        | String d rest' =>
            if special d then option_map (String d) (literal rest')
            else None
        end
      else if special c then None
      else option_map (String c) (literal rest)
  end.

Lemma literal_escaped c rest :
  special c = true ->
  literal (String backslash (String c rest)) =
  option_map (String c) (literal rest).
Proof. intro Es. cbn [literal]. now rewrite Es. Qed.

Lemma literal_plain c rest :
  special c = false ->
  literal (String c rest) = option_map (String c) (literal rest).
Proof.
  intro Es. cbn [literal]. destruct (Ascii.eqb_spec c backslash) as [-> | Hne].
  - discriminate Es.
  - now rewrite Es.
Qed.

Lemma escape_keyword_cons c k :
  escape_keyword (String c k) =
  if special c then String backslash (String c (escape_keyword k))
  else String c (escape_keyword k).
Proof.
  unfold escape_keyword. cbn [expand]. unfold escape_char.
  now destruct (special c).
Qed.

(** The escaped keyword is a literal pattern for the keyword itself:
    every special character of the keyword is behind a backslash, a
    backslash is put before nothing else, and so the pattern stands
    for the characters of the keyword one for one, whatever the
    keyword holds (the expression is built with the flag [i], so
    letters match in either case).  Two keywords with the same pattern
    are equal. *)
Theorem searchTree_pattern_is_literal (keyword : string) :
  literal (escape_keyword keyword) = Some keyword /\
  (forall other, escape_keyword other = escape_keyword keyword ->
                 other = keyword).
Proof.
  assert (Hlit : forall k, literal (escape_keyword k) = Some k).
  { induction k as [| c k IH]; [reflexivity |].
    rewrite escape_keyword_cons. destruct (special c) eqn:Es.
    - rewrite literal_escaped, IH by assumption. reflexivity.
    - rewrite literal_plain, IH by assumption. reflexivity. }
  split; [apply Hlit |].
  intros other E. apply (f_equal literal) in E. rewrite !Hlit in E.
  congruence.
Qed.

End KeywordPattern.
